(** * SEO meta generation ([src/core/utils/seo.js])

    A shallow embedding of the meta-tag generator of react-pwa and the
    proofs of its documented properties.

    - Strings are Rocq strings: one [ascii] per UTF-16 code unit, so the
      development covers the code units 0..255.  Numbers that the code
      computes with ([length], indices, the twitter counter) are [Z] or
      [nat].
    - The SEO objects ([config.seo], the [data] of a route) are records
      with one optional field per key that the module reads; a field
      holds a value of the type the schema gives it (strings, arrays of
      strings, mappings of strings).  [None] is a key that is missing or
      [undefined].
    - [config] and [isBrowser] are imported by the module; they are
      arguments here: [configSeo] is [config.seo] as the module finds it
      when it is loaded, [Env.t] is what [isBrowser()] and [window] give.
    - Meta objects (the generated descriptors and the custom entries of
      [config.seo.meta] and [data.meta]) live in a heap and are referred
      to by location: [addUpdateMeta] pushes the caller's objects into the
      working list and assigns to the objects of that list in place.  An
      object nested in a meta object is part of that object's value: it
      belongs to one meta object only, as it does when the entries are
      written as object literals.
    - The functions that go through [_.set] return an [option]: [None]
      stands for a call outside the embedded fragment of lodash (see
      [set], [assignAll] and [addUpdateOne]), never for a JavaScript
      result. *)

From Stdlib Require Import String Ascii ZArith Lia Bool List.
From Stdlib Require Import Numbers.DecimalString.
From stdpp Require Import base tactics option list strings.

Local Open Scope Z_scope.

(** ** JavaScript string primitives used by the module *)

Module Js.

(** [WhiteSpace] and [LineTerminator] code units below 256, the characters
    that [String.prototype.trim] removes. *)
Definition is_white (c : ascii) : bool :=
  match c with
  | "009" | "010" | "011" | "012" | "013" | " " | "160" => true
  | _ => false
  end%char.

Fixpoint trimStart (s : string) : string :=
  match s with
  | EmptyString => EmptyString
  | String c r => if is_white c then trimStart r else s
  end.

Fixpoint trimEnd (s : string) : string :=
  match s with
  | EmptyString => EmptyString
  | String c r =>
      match trimEnd r with
      | EmptyString => if is_white c then EmptyString else String c EmptyString
      | r' => String c r'
      end
  end.

(** [hasChar c s]: the code unit [c] occurs in [s]. *)
Fixpoint hasChar (c : ascii) (s : string) : bool :=
  match s with
  | EmptyString => false
  | String a r => Ascii.eqb a c || hasChar c r
  end.

(** [s.trim()] *)
Definition trim (s : string) : string := trimEnd (trimStart s).

(** [s.length] *)
Definition len (s : string) : Z := Z.of_nat (String.length s).

(** [s.substr(0, n)]: a negative or zero [n] gives the empty string, an
    [n] past the end gives the whole string. *)
Definition substr0 (s : string) (n : Z) : string :=
  String.substring 0 (Z.to_nat n) s.

(** [s.lastIndexOf(pat)]: the largest index at which [pat] occurs in
    [s], or [-1]. *)
Fixpoint lastIndexOf (s pat : string) : Z :=
  match s with
  | EmptyString => if String.eqb pat EmptyString then 0 else -1
  | String _ r =>
      let i := lastIndexOf r pat in
      if 0 <=? i then i + 1
      else if String.prefix pat s then 0 else -1
  end.

(** [_.startsWith(s, target)] *)
Definition startsWith (s target : string) : bool := String.prefix target s.

(** [arr.join(sep)] on an array of strings. *)
Fixpoint join (sep : string) (l : list string) : string :=
  match l with
  | [] => EmptyString
  | [x] => x
  | x :: r => x +:+ sep +:+ join sep r
  end.

(** [s.replace(/\/$/, "")]: one slash at the very end is dropped. *)
Fixpoint dropTrailingSlash (s : string) : string :=
  match s with
  | EmptyString => EmptyString
  | String c r =>
      match r with
      | EmptyString => if Ascii.eqb c "/" then EmptyString else s
      | _ => String c (dropTrailingSlash r)
      end
  end.

(** Template-literal rendering of a counter. *)
Definition showNat (n : nat) : string := NilZero.string_of_uint (Nat.to_uint n).

(** The regular expression [/<(?:.|\n)*?>/gm] of [getTextFromHtml].
    A match starts at a ["<"] and runs lazily to the next [">"]; the
    characters in between are matched by [.|\n], which takes every code
    unit below 256 except the carriage return. *)
Fixpoint tagCloses (s : string) : bool :=
  match s with
  | EmptyString => false
  | String c r =>
      if Ascii.eqb c ">" then true
      else if Ascii.eqb c "013" then false
      else tagCloses r
  end.

(** [stripTags inTag s] is [s.replace(/<(?:.|\n)*?>/gm, "")] read left to
    right; [inTag] says that the scan is inside a match. *)
Fixpoint stripTags (inTag : bool) (s : string) : string :=
  match s with
  | EmptyString => EmptyString
  | String c r =>
      if inTag then
        if Ascii.eqb c ">" then stripTags false r else stripTags true r
      else if Ascii.eqb c "<" && tagCloses r then stripTags true r
      else String c (stripTags false r)
  end.

End Js.

(** ** [getTextFromHtml] and [trimTillLastSentence] *)

Definition getTextFromHtml (str : string) : string :=
  Js.trim (Js.stripTags false str).

(** [length] is a natural number; [0] also stands for a missing argument. *)
Definition trimTillLastSentence (str : string) (length : nat) : string :=
  let str := getTextFromHtml str in
  if (length =? 0)%nat || (Js.len str =? 0) then str
  else
    let str := str +:+ " " in
    let trimmedString := Js.substr0 str (Z.of_nat length + 1) in
    let cut (separator : string) :=
      Js.trim (Js.substr0 trimmedString
                 (Z.min (Js.len trimmedString - 1)
                        (Js.lastIndexOf trimmedString separator))) in
    if Js.lastIndexOf trimmedString "." =? -1 then
      if Js.lastIndexOf trimmedString " " =? -1 then Js.substr0 str (Z.of_nat length)
      else cut " "
    else cut ".".

(** ** Data model

    Objects are association lists in the order in which JavaScript
    enumerates their own keys.  A value stored in a meta object is a string
    or a nested object (the latter only arises from a dotted-path
    assignment).  Meta objects live in a heap and are referred to by
    location, because [addUpdateMeta] pushes the caller's objects into
    the working list and later assigns to them in place. *)

#[warnings="-register-all"]
Inductive value :=
| VStr (s : string)
| VObj (fields : list (string * value)).

Abbreviation obj := (list (string * value)).
Abbreviation loc := nat.
Abbreviation heap := (list (list (string * value))).

(** [o[k]] for an own key. *)
Fixpoint field (k : string) (o : obj) : option value :=
  match o with
  | [] => None
  | (k', v) :: r => if String.eqb k' k then Some v else field k r
  end.

(** [o.hasOwnProperty(k)]; for a dotted [k] also [k in o], since no
    inherited property has a dot in its name. *)
Definition hasOwn (k : string) (o : obj) : bool :=
  match field k o with
  | Some _ => true
  | None => false
  end.

(** JavaScript truthiness of a property read: a missing property and the
    empty string are falsy, other strings and all objects are truthy. *)
Definition truthy (v : option value) : bool :=
  match v with
  | None => false
  | Some (VStr s) => negb (String.eqb s EmptyString)
  | Some (VObj _) => true
  end.

Inductive keywords :=
| KString (s : string)
| KArray (l : list string).

(** An entry of [type_details]: a string, or a mapping of strings. *)
Inductive detail :=
| Leaf (s : string)
| Nested (sub : list (string * string)).

Module Twitter.
Record t := { site : option string; creator : option string }.
End Twitter.

Module Facebook.
Record t := { admins : option (list string) }.
End Facebook.

(** The fields of an SEO object ([config.seo], the route's [data]); [None]
    is a key that is missing or [undefined]. *)
Module Seo.
Record t := {
  title : option string;
  description : option string;
  keywords : option keywords;
  image : option string;
  site_name : option string;
  twitter : option Twitter.t;
  facebook : option Facebook.t;
  type : option string;
  type_details : option (list (string * detail));
  url : option string;
  meta : option (list loc);
}.
End Seo.

Module Options.
Record t := { baseUrl : string; url : option string }.
End Options.

(** What the module reads from its surroundings: [isBrowser()] and
    [window.location.href]. *)
Module Env.
Record t := { isBrowser : bool; href : option string }.
End Env.

(** [_.defaults(object, source)] on one key. *)
Definition orDefault {A} (own inherited : option A) : option A :=
  match own with
  | Some x => Some x
  | None => inherited
  end.

(** [_.defaults(object, source)]: every key of [source] that resolves to
    [undefined] on [object] is assigned on [object]; the result is
    [object] itself. *)
Definition defaults (object source : Seo.t) : Seo.t :=
  {| Seo.title := orDefault (Seo.title object) (Seo.title source);
     Seo.description := orDefault (Seo.description object) (Seo.description source);
     Seo.keywords := orDefault (Seo.keywords object) (Seo.keywords source);
     Seo.image := orDefault (Seo.image object) (Seo.image source);
     Seo.site_name := orDefault (Seo.site_name object) (Seo.site_name source);
     Seo.twitter := orDefault (Seo.twitter object) (Seo.twitter source);
     Seo.facebook := orDefault (Seo.facebook object) (Seo.facebook source);
     Seo.type := orDefault (Seo.type object) (Seo.type source);
     Seo.type_details := orDefault (Seo.type_details object) (Seo.type_details source);
     Seo.url := orDefault (Seo.url object) (Seo.url source);
     Seo.meta := orDefault (Seo.meta object) (Seo.meta source) |}.

(** The literal of line 8. *)
Definition schemaLiteral : Seo.t :=
  {| Seo.title := Some EmptyString;
     Seo.description := Some EmptyString;
     Seo.keywords := Some (KArray []);
     Seo.image := Some EmptyString;
     Seo.site_name := Some EmptyString;
     Seo.twitter := Some {| Twitter.site := Some EmptyString; Twitter.creator := Some EmptyString |};
     Seo.facebook := Some {| Facebook.admins := Some [] |};
     Seo.type := Some "article"%string;
     Seo.type_details :=
       Some [("section", Leaf ""); ("published_time", Leaf ""); ("modified_time", Leaf "")]%string;
     Seo.url := None;
     Seo.meta := None |}.

(** [seoSchema]: [config.seo] completed with the literal.  It is the
    [config.seo] object itself, so it carries [config.seo.meta] and any
    [url] the configuration has. *)
Definition seoSchema (configSeo : Seo.t) : Seo.t := defaults configSeo schemaLiteral.

Definition metaKeys : list string := ["name"; "itemProp"; "property"]%string.

(** ** [getMetaKey] *)

(** [selectedMetaKey] is [None] for [false]. *)
Definition getMetaKey (meta : obj) : option string :=
  fold_left
    (fun selectedMetaKey key =>
       match selectedMetaKey with
       | Some k => Some k
       | None => if truthy (field key meta) then Some key else None
       end)
    metaKeys None.

(** ** [_.set]

    [_.set(object, path, value)] is embedded for the paths whose meaning
    does not depend on the lodash version or on inherited properties: no
    brackets, and no segment that is empty, a run of digits (an array
    index, which JavaScript also enumerates before the other keys) or the
    name of a member of [Object.prototype].  Outside of that the
    embedding gives no result ([None]). *)

(** The names that an object inherits from [Object.prototype], and
    [prototype], which later versions of [baseSet] refuse as well. *)
Definition inherited : list string :=
  ["__proto__"; "constructor"; "prototype"; "hasOwnProperty"; "isPrototypeOf";
   "propertyIsEnumerable"; "toLocaleString"; "toString"; "valueOf";
   "__defineGetter__"; "__defineSetter__"; "__lookupGetter__"; "__lookupSetter__"]%string.

Definition isDigit (c : ascii) : bool :=
  match c with
  | "0" | "1" | "2" | "3" | "4" | "5" | "6" | "7" | "8" | "9" => true
  | _ => false
  end%char.

Fixpoint allDigits (s : string) : bool :=
  match s with
  | EmptyString => true
  | String c r => isDigit c && allDigits r
  end.

(** A path segment inside the embedded fragment. *)
Definition plainSegment (seg : string) : bool :=
  negb (existsb (String.eqb seg) inherited) && negb (allDigits seg).

(** [stringToPath] on a bracket-free string: the segments between dots. *)
Fixpoint stringToPath (s : string) : list string :=
  match s with
  | EmptyString => [EmptyString]
  | String c r =>
      if Ascii.eqb c "." then EmptyString :: stringToPath r
      else match stringToPath r with
           | seg :: segs => String c seg :: segs
           | [] => [String c EmptyString]
           end
  end.

(** [isKey(path, object)]: a string without a dot, or an existing key. *)
Definition isKey (path : string) (object : obj) : bool :=
  negb (Js.hasChar "." path) || hasOwn path object.

(** [castPath(path, object)] *)
Definition castPath (path : string) (object : obj) : list string :=
  if isKey path object then [path] else stringToPath path.

(** [object[key] = v]: an existing key keeps its place, a new key goes last. *)
Fixpoint assignValue (object : obj) (key : string) (v : value) : obj :=
  match object with
  | [] => [(key, v)]
  | (k, w) :: r => if String.eqb k key then (k, v) :: r else (k, w) :: assignValue r key v
  end.

(** The loop of [baseSet]: walk the path, keep nested objects, replace
    anything else on the way by a new object. *)
Fixpoint baseSet (object : obj) (path : list string) (v : value) : obj :=
  match path with
  | [] => object
  | [key] => assignValue object key v
  | key :: rest =>
      let objValue :=
        match field key object with
        | Some (VObj fields) => fields
        | _ => []
        end in
      assignValue object key (VObj (baseSet objValue rest v))
  end.

(** [_.set(object, path, v)] on the embedded fragment. *)
Definition set (object : obj) (path : string) (v : value) : option obj :=
  let segments := castPath path object in
  if Js.hasChar "[" path || Js.hasChar "]" path then None
  else if forallb plainSegment segments then Some (baseSet object segments v)
  else None.

(** A path that [set] accepts on every object. *)
Definition modelledKey (path : string) : bool :=
  negb (Js.hasChar "[" path || Js.hasChar "]" path)
  && forallb plainSegment (stringToPath path).

Definition isStr (v : value) : bool :=
  match v with
  | VStr _ => true
  | VObj _ => false
  end.

(** A meta object as a configuration or a route writes it: string values
    under keys that [set] accepts. *)
Definition supported (o : obj) : bool :=
  forallb (fun kv => modelledKey (fst kv) && isStr (snd kv)) o.


(** The fields of a custom entry assigned one after the other. *)
Definition assignFields (object fields : obj) : obj :=
  fold_left (fun object kv => baseSet object (castPath (fst kv) object) (snd kv))
    fields object.

(** ** [addUpdateMeta] *)

(** The predicate [_.find] gets from [{ [metaKey]: meta[metaKey] }] when
    the value is a string: [object[metaKey] === srcValue]. *)
Definition fieldIs (metaKey srcValue : string) (object : obj) : bool :=
  match field metaKey object with
  | Some (VStr s) => String.eqb s srcValue
  | _ => false
  end.

(** The same on an element of [source]. *)
Definition matchesProperty (h : heap) (metaKey srcValue : string) (l : loc) : bool :=
  match h !! l with
  | Some object => fieldIs metaKey srcValue object
  | None => false
  end.

(** The inner [_.each(meta, (value, key) => _.set(generatedSchemaObj, key, value))].
    Assigning an object to itself changes nothing.  Copying a nested
    object into another meta object would make the two share it; the
    embedding gives no result there. *)
Fixpoint assignAll (h : heap) (generatedSchemaObj : loc) (fields : obj) : option heap :=
  match fields with
  | [] => Some h
  | (key, VStr s) :: r =>
      object ← h !! generatedSchemaObj;
      object' ← set object key (VStr s);
      assignAll (<[generatedSchemaObj := object']> h) generatedSchemaObj r
  | (_, VObj _) :: _ => None
  end.

(** One round of the outer [_.each(customMetas, meta => ...)].  When the
    entry's value at its identifying key is a nested object, [_.find]
    compares by partial deep match; the embedding gives no result there. *)
Definition addUpdateOne (st : heap * list loc) (meta : loc) : option (heap * list loc) :=
  let '(h, source) := st in
  metaObj ← h !! meta;
  match getMetaKey metaObj with
  | Some metaKey =>
      match field metaKey metaObj with
      | Some (VStr srcValue) =>
          match List.find (matchesProperty h metaKey srcValue) source with
          | Some generatedSchemaObj =>
              if Nat.eqb generatedSchemaObj meta then Some (h, source)
              else h' ← assignAll h generatedSchemaObj metaObj; Some (h', source)
          | None => Some (h, source ++ [meta])
          end
      | _ => None
      end
  | None => Some (h, source ++ [meta])
  end.

(** [addUpdateMeta(source, customMetas)]; the state is the heap and
    [source]. *)
Fixpoint addUpdateMeta (st : heap * list loc) (customMetas : list loc)
  : option (heap * list loc) :=
  match customMetas with
  | [] => Some st
  | meta :: r => st' ← addUpdateOne st meta; addUpdateMeta st' r
  end.

(** ** [_.isEqual] and [_.uniqWith] *)

(** [_.isEqual(a, b)]: equal strings, or objects with as many keys where
    every key of [a] is a key of [b] with an equal value. *)
Fixpoint isEqual (a b : value) {struct a} : bool :=
  match a, b with
  | VStr s, VStr t => String.eqb s t
  | VObj fa, VObj fb =>
      Nat.eqb (length fa) (length fb)
      && forallb (fun kv => match field (fst kv) fb with
                            | Some vb => isEqual (snd kv) vb
                            | None => false
                            end) fa
  | _, _ => false
  end.

(** [_.isEqual] on two elements of the working list: the same object, or
    objects with equal contents. *)
Definition isEqualAt (h : heap) (a b : loc) : bool :=
  Nat.eqb a b
  || match h !! a, h !! b with
     | Some oa, Some ob => isEqual (VObj oa) (VObj ob)
     | _, _ => false
     end.

(** [_.uniqWith(array, comparator)]: an element is kept unless the
    comparator relates it to an element kept before ([arrayIncludesWith]
    calls [comparator(value, seen)]). *)
Definition uniqWith {A} (comparator : A -> A -> bool) (array : list A) : list A :=
  fold_left
    (fun result x => if existsb (fun seen => comparator x seen) result then result
                     else result ++ [x])
    array [].

(** ** [generateMeta] *)

(** An object literal [{ idKey: idValue, content: content }]. *)
Definition descriptor (idKey idValue content : string) : obj :=
  [(idKey, VStr idValue); ("content"%string, VStr content)].

(** [_.get(object, path, defaultValue)] once the path has been read. *)
Definition getOr {A} (defaultValue : A) (o : option A) : A :=
  match o with
  | Some x => x
  | None => defaultValue
  end.

(** A string-valued key; the schema defines the ones that are read
    without a default. *)
Definition str (o : option string) : string := getOr EmptyString o.

(** [_.isEmpty] on a string. *)
Definition isEmpty (s : string) : bool := String.eqb s EmptyString.

Definition push (generatedSchema : list obj) (o : obj) : list obj :=
  generatedSchema ++ [o].

(** The three pushes for one non-empty leaf of [type_details], and
    [twitterDataCounter++]. *)
Definition pushDetail (property label content : string) (st : list obj * nat)
  : list obj * nat :=
  let '(generatedSchema, twitterDataCounter) := st in
  let generatedSchema := push generatedSchema (descriptor "property" property content) in
  let generatedSchema :=
    push generatedSchema
      (descriptor "name" ("twitter:data" +:+ Js.showNat twitterDataCounter) content) in
  let generatedSchema :=
    push generatedSchema
      (descriptor "name" ("twitter:label" +:+ Js.showNat twitterDataCounter) label) in
  (generatedSchema, S twitterDataCounter).

(** The callback of the inner [_.each(value, (subValue, subKey) => ...)]. *)
Definition eachSubDetail (type key : string) (st : list obj * nat)
    (entry : string * string) : list obj * nat :=
  let '(subKey, subValue) := entry in
  if negb (isEmpty subValue) then
    pushDetail (type +:+ ":" +:+ key +:+ ":" +:+ subKey) subKey subValue st
  else st.

(** The callback of [_.each(seoData.type_details, (value, key) => ...)]. *)
Definition eachDetail (type : string) (st : list obj * nat)
    (entry : string * detail) : list obj * nat :=
  let '(key, value) := entry in
  match value with
  | Nested sub => fold_left (eachSubDetail type key) sub st
  | Leaf s =>
      if negb (isEmpty s) then pushDetail (type +:+ ":" +:+ key) key s st
      else st
  end.

(** The page address of lines 220-223. *)
Definition resolveUrl (env : Env.t) (seoData : Seo.t) (options : Options.t) : string :=
  let url := getOr (str (Options.url options)) (Seo.url seoData) in
  if (Js.len url =? 0) && Env.isBrowser env then str (Env.href env) else url.

(** [fullImageUrl] of lines 149-152. *)
Definition fullImageUrl (image baseUrl : string) : string :=
  if negb (Js.startsWith image "http") then
    baseUrl +:+ (if negb (Js.startsWith image "/") then "/" else "") +:+ image
  else image.

(** [if (cond) { ... }] around statements that push onto the working list. *)
Definition when (cond : bool) (body : list obj -> list obj) (generatedSchema : list obj)
  : list obj :=
  if cond then body generatedSchema else generatedSchema.

(** Lines 47-229: the working list before the custom meta is applied. *)
Definition generatedSchema (env : Env.t) (seoData : Seo.t) (options : Options.t)
  : list obj :=
  let generatedSchema := [] in
  let description := str (Seo.description seoData) in
  let title := str (Seo.title seoData) in
  let image := str (Seo.image seoData) in
  let site_name := str (Seo.site_name seoData) in
  let type := str (Seo.type seoData) in
  let desc155words := trimTillLastSentence description 155 in
  let desc200words := trimTillLastSentence description 200 in
  let hasImage := negb (Js.len image =? 0) in
  let baseUrl := Js.dropTrailingSlash (Options.baseUrl options) in
  (* name/title *)
  let generatedSchema := push generatedSchema (descriptor "name" "title" title) in
  let generatedSchema := push generatedSchema (descriptor "name" "twitter:title" title) in
  let generatedSchema := push generatedSchema (descriptor "property" "og:title" title) in
  (* keywords *)
  let generatedSchema :=
    match Seo.keywords seoData with
    | Some (KString s) =>
        when (negb (Js.len (Js.trim s) =? 0))
          (fun generatedSchema => push generatedSchema (descriptor "name" "keywords" s))
          generatedSchema
    | Some (KArray l) =>
        when (negb (Nat.eqb (length l) 0))
          (fun generatedSchema =>
             push generatedSchema (descriptor "name" "keywords" (Js.join "," l)))
          generatedSchema
    | None => generatedSchema
    end in
  (* twitter site & author *)
  let twitterSite := str (Seo.twitter seoData ≫= Twitter.site) in
  let generatedSchema :=
    when (negb (Js.len twitterSite =? 0))
      (fun generatedSchema =>
         push generatedSchema (descriptor "name" "twitter:site" twitterSite))
      generatedSchema in
  let twitterCreator := str (Seo.twitter seoData ≫= Twitter.creator) in
  let generatedSchema :=
    when (negb (Js.len twitterCreator =? 0))
      (fun generatedSchema =>
         push generatedSchema (descriptor "name" "twitter:creator" twitterCreator))
      generatedSchema in
  (* facebook admins *)
  let fbAdmins := getOr [] (Seo.facebook seoData ≫= Facebook.admins) in
  let generatedSchema :=
    when (negb (Nat.eqb (length fbAdmins) 0))
      (fun generatedSchema =>
         push generatedSchema (descriptor "property" "fb:admins" (Js.join "," fbAdmins)))
      generatedSchema in
  (* description *)
  let generatedSchema := push generatedSchema (descriptor "name" "description" desc155words) in
  let generatedSchema :=
    push generatedSchema (descriptor "name" "twitter:description" desc200words) in
  let generatedSchema :=
    push generatedSchema (descriptor "property" "og:description" description) in
  (* site name *)
  let generatedSchema :=
    when (negb (Js.len site_name =? 0))
      (fun generatedSchema =>
         push generatedSchema (descriptor "property" "og:site_name" site_name))
      generatedSchema in
  (* primary image *)
  let generatedSchema :=
    when hasImage
      (fun generatedSchema =>
         let fullImageUrl := fullImageUrl image baseUrl in
         let generatedSchema :=
           push generatedSchema (descriptor "itemProp" "image" fullImageUrl) in
         let generatedSchema :=
           push generatedSchema (descriptor "name" "twitter:image:src" fullImageUrl) in
         push generatedSchema (descriptor "property" "og:image" fullImageUrl))
      generatedSchema in
  (* type of twitter card *)
  let generatedSchema :=
    push generatedSchema
      (descriptor "name" "twitter:card" (if hasImage then "summary_large_image" else "summary")) in
  (* type article/product/music/movie *)
  let generatedSchema := push generatedSchema (descriptor "property" "og:type" type) in
  let twitterDataCounter := 1%nat in
  let '(generatedSchema, _) :=
    fold_left (eachDetail type) (getOr [] (Seo.type_details seoData))
      (generatedSchema, twitterDataCounter) in
  (* url *)
  let url := resolveUrl env seoData options in
  when (negb (Js.len (Js.trim url) =? 0))
    (fun generatedSchema => push generatedSchema (descriptor "property" "og:url" url))
    generatedSchema.

(** Lines 47-236: the merged data, the heap and the working list after
    the configuration's and the page's custom meta have been applied.
    The generated descriptors are new objects, placed after the ones the
    heap already holds. *)
Definition workingList (configSeo : Seo.t) (env : Env.t) (h : heap)
    (data : Seo.t) (options : Options.t) : option (heap * list loc) :=
  let seoData := defaults data (seoSchema configSeo) in
  let generated := generatedSchema env seoData options in
  let st := (h ++ generated, seq (length h) (length generated)) in
  let configMeta := getOr [] (Seo.meta (seoSchema configSeo)) in
  st ← addUpdateMeta st configMeta;
  let userMeta := getOr [] (Seo.meta seoData) in
  addUpdateMeta st userMeta.

(** What a call leaves behind: the heap, the caller's [data] object and
    the returned array. *)
Record outcome := {
  outHeap : heap;
  outData : Seo.t;
  outMeta : list loc;
}.

Definition generateMeta (configSeo : Seo.t) (env : Env.t) (h : heap)
    (data : Seo.t) (options : Options.t) : option outcome :=
  '(h', working) ← workingList configSeo env h data options;
  Some {| outHeap := h';
          outData := defaults data (seoSchema configSeo);
          outMeta := uniqWith (isEqualAt h') working |}.

(** The returned array as the page-rendering layer reads it. *)
Definition descriptors (r : outcome) : list obj :=
  omap (fun l => outHeap r !! l) (outMeta r).

(** ** Vocabulary of the properties *)

(** *** The generated working list, block by block *)

(** The descriptors that each part of lines 55-229 pushes. *)

Section Blocks.

Variables (env : Env.t) (seoData : Seo.t) (options : Options.t).

Definition titleBlock : list obj :=
  let title := str (Seo.title seoData) in
  [descriptor "name" "title" title; descriptor "name" "twitter:title" title;
   descriptor "property" "og:title" title].

Definition keywordsBlock : list obj :=
  match Seo.keywords seoData with
  | Some (KString s) =>
      if negb (Js.len (Js.trim s) =? 0) then [descriptor "name" "keywords" s] else []
  | Some (KArray l) =>
      if negb (Nat.eqb (length l) 0) then [descriptor "name" "keywords" (Js.join "," l)]
      else []
  | None => []
  end.

Definition twitterBlock : list obj :=
  let twitterSite := str (Seo.twitter seoData ≫= Twitter.site) in
  let twitterCreator := str (Seo.twitter seoData ≫= Twitter.creator) in
  (if negb (Js.len twitterSite =? 0) then [descriptor "name" "twitter:site" twitterSite]
   else [])
  ++ (if negb (Js.len twitterCreator =? 0)
      then [descriptor "name" "twitter:creator" twitterCreator] else []).

Definition facebookBlock : list obj :=
  let fbAdmins := getOr [] (Seo.facebook seoData ≫= Facebook.admins) in
  if negb (Nat.eqb (length fbAdmins) 0)
  then [descriptor "property" "fb:admins" (Js.join "," fbAdmins)] else [].

Definition descriptionBlock : list obj :=
  let description := str (Seo.description seoData) in
  [descriptor "name" "description" (trimTillLastSentence description 155);
   descriptor "name" "twitter:description" (trimTillLastSentence description 200);
   descriptor "property" "og:description" description].

Definition siteNameBlock : list obj :=
  let site_name := str (Seo.site_name seoData) in
  if negb (Js.len site_name =? 0) then [descriptor "property" "og:site_name" site_name]
  else [].

(** The three image descriptors for a resolved address. *)
Definition imageTriple (fullImageUrl : string) : list obj :=
  [descriptor "itemProp" "image" fullImageUrl;
   descriptor "name" "twitter:image:src" fullImageUrl;
   descriptor "property" "og:image" fullImageUrl].

Definition imageBlock : list obj :=
  let image := str (Seo.image seoData) in
  if negb (Js.len image =? 0)
  then imageTriple (fullImageUrl image (Js.dropTrailingSlash (Options.baseUrl options)))
  else [].

Definition cardBlock : list obj :=
  let image := str (Seo.image seoData) in
  [descriptor "name" "twitter:card"
     (if negb (Js.len image =? 0) then "summary_large_image" else "summary");
   descriptor "property" "og:type" (str (Seo.type seoData))].

(** Everything pushed before [type_details] is visited. *)
Definition beforeDetails : list obj :=
  titleBlock ++ keywordsBlock ++ twitterBlock ++ facebookBlock ++ descriptionBlock
  ++ siteNameBlock ++ imageBlock ++ cardBlock.

(** The triple pushed for the [n]-th non-empty leaf. *)
Definition detailTriple (property label content : string) (n : nat) : list obj :=
  [descriptor "property" property content;
   descriptor "name" ("twitter:data" +:+ Js.showNat n) content;
   descriptor "name" ("twitter:label" +:+ Js.showNat n) label].

(** The leaves of one [type_details] entry in iteration order: the key
    path after the type, the label, the value. *)
Definition leavesOf (entry : string * detail) : list (string * string * string) :=
  match entry with
  | (key, Leaf s) => [(key, key, s)]
  | (key, Nested sub) =>
      map (fun kv => (key +:+ ":" +:+ fst kv, fst kv, snd kv)) sub
  end.

Definition nonEmptyLeaves (details : list (string * detail))
  : list (string * string * string) :=
  List.filter (fun leaf => negb (isEmpty (snd leaf))) (flat_map leavesOf details).

(** The [type_details] descriptors as the documentation words them: one
    triple per non-empty leaf, numbered from [first] in iteration order. *)
Definition numberedTriples (type : string) (first : nat)
    (leaves : list (string * string * string)) : list obj :=
  concat (imap (fun i leaf =>
                  detailTriple (type +:+ ":" +:+ fst (fst leaf)) (snd (fst leaf))
                    (snd leaf) (first + i))
            leaves).

Definition detailsBlock : list obj :=
  numberedTriples (str (Seo.type seoData)) 1
    (nonEmptyLeaves (getOr [] (Seo.type_details seoData))).

Definition urlBlock : list obj :=
  let url := resolveUrl env seoData options in
  if negb (Js.len (Js.trim url) =? 0) then [descriptor "property" "og:url" url] else [].

End Blocks.

(** *** The loop of [addUpdateMeta] *)

(** What one round of the outer loop can do. *)
Inductive roundResult (h : heap) (source : list loc) (meta : loc)
  : heap * list loc -> Prop :=
| Appended : roundResult h source meta (h, source ++ [meta])
| SelfAssigned : meta ∈ source -> roundResult h source meta (h, source)
| Assigned metaObj metaKey srcValue target o :
    h !! meta = Some metaObj ->
    getMetaKey metaObj = Some metaKey ->
    field metaKey metaObj = Some (VStr srcValue) ->
    target ∈ source -> target <> meta ->
    h !! target = Some o -> fieldIs metaKey srcValue o = true ->
    roundResult h source meta (<[target := assignFields o metaObj]> h, source).

(** Every location of [ls] holds an object, and the object satisfies [P]. *)
Definition holdsAt (P : obj -> Prop) (h : heap) (ls : list loc) : Prop :=
  forall l, l ∈ ls -> exists o, h !! l = Some o /\ P o.

(** [P] survives the assignment of a custom entry onto the descriptor it
    matches. *)
Definition assignStable (P : obj -> Prop) : Prop :=
  forall o metaObj metaKey srcValue,
    P o -> P metaObj ->
    getMetaKey metaObj = Some metaKey ->
    field metaKey metaObj = Some (VStr srcValue) ->
    fieldIs metaKey srcValue o = true ->
    P (assignFields o metaObj).

(** *** Structural equality *)

(** No element of the list is related to an earlier one. *)
Fixpoint earlierNeverEqual {A} (comparator : A -> A -> bool) (l : list A) : Prop :=
  match l with
  | [] => True
  | a :: r =>
      Forall (fun b => comparator b a = false) r /\ earlierNeverEqual comparator r
  end.


(** *** Identifying keys *)

Definition isMetaKey (k : string) : bool := existsb (String.eqb k) metaKeys.







(** *** Plain entries *)

(** A custom entry with string values under supported keys without dots,
    such as [{ name: "google-site-verification", content: "..." }]. *)
Definition plainField (kv : string * value) : bool :=
  modelledKey (fst kv) && negb (Js.hasChar "." (fst kv)) && isStr (snd kv).

Definition plainEntry (o : obj) : bool := forallb plainField o.

(** *** The whole call *)

(** Every generated object is a literal [{ K: ..., content: ... }] with
    [K] one of the three identifying keys. *)
Definition isGenerated (o : obj) : Prop :=
  exists K idValue content, isMetaKey K = true /\ o = descriptor K idValue content.

(** The object with its [url] key set to [u]. *)
Definition withUrl (u : option string) (seoData : Seo.t) : Seo.t :=
  {| Seo.title := Seo.title seoData;
     Seo.description := Seo.description seoData;
     Seo.keywords := Seo.keywords seoData;
     Seo.image := Seo.image seoData;
     Seo.site_name := Seo.site_name seoData;
     Seo.twitter := Seo.twitter seoData;
     Seo.facebook := Seo.facebook seoData;
     Seo.type := Seo.type seoData;
     Seo.type_details := Seo.type_details seoData;
     Seo.url := u;
     Seo.meta := Seo.meta seoData |}.

(** The page address under the reading "[seoData.url] if it is non-empty,
    otherwise [options.url]; in a browser an empty result is replaced by
    the current address". *)
Definition claimedUrl (env : Env.t) (seoData : Seo.t) (options : Options.t) : string :=
  let url := str (Seo.url seoData) in
  let url := if String.eqb url EmptyString then str (Options.url options) else url in
  if String.eqb url EmptyString && Env.isBrowser env then str (Env.href env) else url.


(** *** Reading the generated list and the cleaned text *)

(** The [content] of the descriptors of [l] whose [idKey] is [idValue],
    in the order of [l]: what the rendering layer finds for that tag. *)
Definition contents (idKey idValue : string) (l : list obj) : list string :=
  omap (fun o => if fieldIs idKey idValue o
                 then match field "content" o with
                      | Some (VStr c) => Some c
                      | _ => None
                      end
                 else None) l.

(** The one-element list of a non-empty string. *)
Definition ifNonEmpty (s : string) : list string := if isEmpty s then [] else [s].

(** The value of a schema key after [_.defaults(data, seoSchema)]: the
    page's, else the configuration's, else the one of the literal. *)
Definition layered {A} (page config : option A) (literal : A) : A :=
  getOr (getOr literal config) page.

(** The identifying key and value of a descriptor literal. *)
Definition idPair (o : obj) : option (string * string) :=
  match o with
  | (K, VStr idValue) :: _ => Some (K, idValue)
  | _ => None
  end.

(** [s] does not start with a white-space character. *)
Definition startsBlack (s : string) : bool :=
  match s with
  | EmptyString => true
  | String c _ => negb (Js.is_white c)
  end.

(** ** Inputs of the examples *)

(** The empty object [{}]. *)
Definition noSeo : Seo.t :=
  {| Seo.title := None; Seo.description := None; Seo.keywords := None;
     Seo.image := None; Seo.site_name := None; Seo.twitter := None;
     Seo.facebook := None; Seo.type := None; Seo.type_details := None;
     Seo.url := None; Seo.meta := None |}.

(** Rendering on the server: [isBrowser()] is [false]. *)
Definition server : Env.t := {| Env.isBrowser := false; Env.href := None |}.

(** [generateMeta({ url: "" }, { baseUrl: "", url: "http://a.com/p" })] on
    the server, without [config.seo]. *)
Definition c2Data : Seo.t :=
  {| Seo.title := None; Seo.description := None; Seo.keywords := None;
     Seo.image := None; Seo.site_name := None; Seo.twitter := None;
     Seo.facebook := None; Seo.type := None; Seo.type_details := None;
     Seo.url := Some EmptyString; Seo.meta := None |}.

Definition c2Options : Options.t :=
  {| Options.baseUrl := EmptyString; Options.url := Some "http://a.com/p"%string |}.

(** [generateMeta({ image: "pic.jpg" }, { baseUrl: "http://x.com/" })]. *)
Definition c7Data : Seo.t :=
  {| Seo.title := None; Seo.description := None; Seo.keywords := None;
     Seo.image := Some "pic.jpg"%string; Seo.site_name := None; Seo.twitter := None;
     Seo.facebook := None; Seo.type := None; Seo.type_details := None;
     Seo.url := None; Seo.meta := None |}.

Definition c7Options : Options.t :=
  {| Options.baseUrl := "http://x.com/"; Options.url := None |}.

(** [generateMeta({ type: "article", type_details: { section: "news",
    empty: "", author: { first: "", last: "Doe" } } }, { baseUrl: "" })]. *)
Definition c8Data : Seo.t :=
  {| Seo.title := None; Seo.description := None; Seo.keywords := None;
     Seo.image := None; Seo.site_name := None; Seo.twitter := None;
     Seo.facebook := None; Seo.type := Some "article"%string;
     Seo.type_details :=
       Some [("section", Leaf "news"); ("empty", Leaf "");
             ("author", Nested [("first", ""); ("last", "Doe")])]%string;
     Seo.url := None; Seo.meta := None |}.

Definition noOptions : Options.t :=
  {| Options.baseUrl := EmptyString; Options.url := None |}.







(** [generateMeta({ meta: [{ name: "robots", content: "none" }] })] with
    [config.seo.meta = [{ name: "robots", content: "all" }]]: the
    configuration's entry is object 0, the page's entry object 1. *)
Definition sharedHeap : heap :=
  [[("name", VStr "robots"); ("content", VStr "all")];
   [("name", VStr "robots"); ("content", VStr "none")]]%string.

Definition sharedConfig : Seo.t :=
  {| Seo.title := None; Seo.description := None; Seo.keywords := None;
     Seo.image := None; Seo.site_name := None; Seo.twitter := None;
     Seo.facebook := None; Seo.type := None; Seo.type_details := None;
     Seo.url := None; Seo.meta := Some [0%nat] |}.

Definition sharedData : Seo.t :=
  {| Seo.title := None; Seo.description := None; Seo.keywords := None;
     Seo.image := None; Seo.site_name := None; Seo.twitter := None;
     Seo.facebook := None; Seo.type := None; Seo.type_details := None;
     Seo.url := None; Seo.meta := Some [1%nat] |}.



(** [addUpdateMeta(source, customMetas)] with two [robots] entries and an
    entry without identifying key. *)
Definition robotsHeap : heap :=
  [[("name", VStr "robots"); ("content", VStr "all")];
   [("name", VStr "robots"); ("content", VStr "none")];
   [("custom", VStr "x")]]%string.

(** [generateMeta({ description: "<p>Hello world. Bye</p>",
    meta: [{ name: "description", content: "Custom text" }] })]. *)
Definition overrideHeap : heap :=
  [[("name", VStr "description"); ("content", VStr "Custom text")]]%string.

Definition overrideData : Seo.t :=
  {| Seo.title := None; Seo.description := Some "<p>Hello world. Bye</p>"%string;
     Seo.keywords := None; Seo.image := None; Seo.site_name := None;
     Seo.twitter := None; Seo.facebook := None; Seo.type := None;
     Seo.type_details := None; Seo.url := None; Seo.meta := Some [0%nat] |}.

(** [generateMeta({ title: "T", image: "pic.jpg",
    type_details: { section: "news" } })]. *)
Definition plainData : Seo.t :=
  {| Seo.title := Some "T"%string; Seo.description := None; Seo.keywords := None;
     Seo.image := Some "pic.jpg"%string; Seo.site_name := None; Seo.twitter := None;
     Seo.facebook := None; Seo.type := None;
     Seo.type_details := Some [("section", Leaf "news")]%string;
     Seo.url := None; Seo.meta := None |}.

(** ** The documented calls of [trimTillLastSentence] *)

Example trim_ex1 : trimTillLastSentence "Tirth Bodawala." 14 = "Tirth Bodawala".
Proof. reflexivity. Qed.
Example trim_ex2 : trimTillLastSentence "Tirth Bodawala" 5 = "Tirth".
Proof. reflexivity. Qed.
Example trim_ex3 : trimTillLastSentence "<b>Hello</b> world" 0 = "Hello world".
Proof. reflexivity. Qed.
Example trim_ex4 : trimTillLastSentence "abcdefgh" 3 = "abc".
Proof. reflexivity. Qed.

(** ** Facts about the string primitives *)

Section StringFacts.

Implicit Types (s t pre post pat : string) (c : ascii).

Lemma append_cons c s t : String c s +:+ t = String c (s +:+ t).
Proof. reflexivity. Qed.

Lemma append_empty_l t : EmptyString +:+ t = t.
Proof. reflexivity. Qed.

Lemma length_append s t :
  String.length (s +:+ t) = (String.length s + String.length t)%nat.
Proof. induction s as [|c s IH]; [done|]. rewrite ?append_cons. simpl. by rewrite IH. Qed.

Lemma len_eqb_0 s : (Js.len s =? 0) = String.eqb s EmptyString.
Proof. by destruct s. Qed.

Lemma length_trimStart s : (String.length (Js.trimStart s) <= String.length s)%nat.
Proof. induction s as [|c s IH]; simpl; [lia|]. destruct (Js.is_white c); simpl; lia. Qed.

Lemma length_trimEnd s : (String.length (Js.trimEnd s) <= String.length s)%nat.
Proof.
  induction s as [|c s IH]; simpl; [lia|].
  destruct (Js.trimEnd s); [destruct (Js.is_white c)|]; simpl in *; lia.
Qed.

Lemma length_trim s : (String.length (Js.trim s) <= String.length s)%nat.
Proof.
  unfold Js.trim. etrans; [apply length_trimEnd|apply length_trimStart].
Qed.

Lemma length_substring0 n s :
  String.length (String.substring 0 n s) = Nat.min n (String.length s).
Proof.
  revert n; induction s as [|c s IH]; intros [|n]; simpl; try done.
  by rewrite IH.
Qed.

Lemma substring0_append n s t :
  (n <= String.length s)%nat ->
  String.substring 0 n (s +:+ t) = String.substring 0 n s.
Proof.
  revert n; induction s as [|c s IH]; intros [|n] Hn; simpl in *; try done; try lia.
  - by destruct t.
  - rewrite ?append_cons. simpl. rewrite IH; [done|lia].
Qed.

Lemma substring0_length_append s t :
  String.substring 0 (String.length s) (s +:+ t) = s.
Proof.
  induction s as [|c s IH]; simpl.
  - by destruct t.
  - rewrite ?append_cons. simpl. by rewrite IH.
Qed.

Lemma hasChar_append c s t : Js.hasChar c (s +:+ t) = Js.hasChar c s || Js.hasChar c t.
Proof.
  induction s as [|a s IH]; [done|]. rewrite ?append_cons. simpl.
  by rewrite IH, orb_assoc.
Qed.

Lemma hasChar_substring0 c n s :
  Js.hasChar c s = false -> Js.hasChar c (String.substring 0 n s) = false.
Proof.
  revert n; induction s as [|a s IH]; intros [|n] H; simpl in *; try done.
  apply orb_false_iff in H as [-> H]. simpl. by apply IH.
Qed.

(** A window without [c] cut from a string that has [c] at index
    [String.length s] is shorter than that index allows: it lies inside [s]. *)
Lemma hasChar_window c n s t :
  Js.hasChar c (String.substring 0 n (s +:+ String c t)) = false ->
  (n <= String.length s)%nat.
Proof.
  revert n; induction s as [|a s IH]; intros [|n]; simpl; try lia.
  - rewrite ?append_empty_l. simpl. by rewrite Ascii.eqb_refl.
  - rewrite ?append_cons. simpl. intros [_ H]%orb_false_iff. apply IH in H. lia.
Qed.

Lemma prefix_char c s : String.prefix (String c EmptyString) (String c s) = true.
Proof. simpl. destruct (ascii_dec c c); [by destruct s|done]. Qed.

Lemma lastIndexOf_char_bounds s c :
  -1 <= Js.lastIndexOf s (String c EmptyString) < Js.len s.
Proof.
  unfold Js.len. induction s as [|a s IH]; simpl String.length.
  - simpl. lia.
  - cbn [Js.lastIndexOf]. destruct (0 <=? _) eqn:E; [lia|].
    destruct (String.prefix _ _); lia.
Qed.

Lemma lastIndexOf_absent s c :
  Js.hasChar c s = false -> Js.lastIndexOf s (String c EmptyString) = -1.
Proof.
  induction s as [|a s IH]; [done|]. simpl Js.hasChar.
  intros [Ha H]%orb_false_iff. cbn [Js.lastIndexOf]. rewrite (IH H). simpl.
  destruct (ascii_dec c a) as [->|]; [|done]. by rewrite Ascii.eqb_refl in Ha.
Qed.

Lemma lastIndexOf_present s c :
  Js.hasChar c s = true -> 0 <= Js.lastIndexOf s (String c EmptyString).
Proof.
  induction s as [|a s IH]; [done|]. simpl Js.hasChar. cbn [Js.lastIndexOf].
  destruct (0 <=? _) eqn:E; [lia|]. intros [Ha|H]%orb_true_iff.
  - apply Ascii.eqb_eq in Ha as ->. rewrite prefix_char. lia.
  - apply IH in H. lia.
Qed.

Lemma lastIndexOf_last pre post c :
  Js.hasChar c post = false ->
  Js.lastIndexOf (pre +:+ String c post) (String c EmptyString) = Js.len pre.
Proof.
  intros Hpost. unfold Js.len. induction pre as [|a pre IH].
  - rewrite ?append_empty_l. cbn [Js.lastIndexOf]. rewrite (lastIndexOf_absent _ _ Hpost).
    by rewrite prefix_char.
  - rewrite ?append_cons. cbn [Js.lastIndexOf]. rewrite IH.
    destruct (0 <=? _) eqn:E; [simpl String.length; lia|lia].
Qed.

End StringFacts.

(** ** Truncation: [trimTillLastSentence] *)

Section Trim.

Implicit Types (str clean pre post : string) (length : nat).

Lemma len_substr0 s n : Js.len (Js.substr0 s n) = Z.min (Z.max 0 n) (Js.len s).
Proof. unfold Js.len, Js.substr0. rewrite length_substring0. lia. Qed.

Lemma substr0_len_append s t : Js.substr0 (s +:+ t) (Js.len s) = s.
Proof.
  unfold Js.substr0, Js.len. rewrite Nat2Z.id. apply substring0_length_append.
Qed.

(** The value of the last line of [trimTillLastSentence] when the
    separator occurs in the window: everything before its last occurrence. *)
Lemma cut_at_last pre post c :
  Js.hasChar c post = false ->
  let window := pre +:+ String c post in
  Js.substr0 window
    (Z.min (Js.len window - 1) (Js.lastIndexOf window (String c EmptyString))) = pre.
Proof.
  intros Hpost. cbv zeta. rewrite (lastIndexOf_last _ _ _ Hpost).
  assert (Js.len pre <= Js.len (pre +:+ String c post) - 1).
  { unfold Js.len. rewrite length_append. simpl. lia. }
  rewrite Z.min_r by done. apply substr0_len_append.
Qed.

Lemma trimTillLastSentence_unfold str length :
  (0 < length)%nat -> getTextFromHtml str <> EmptyString ->
  let clean := getTextFromHtml str in
  let window := Js.substr0 (clean +:+ " ") (Z.of_nat length + 1) in
  let cut separator :=
    Js.trim (Js.substr0 window
               (Z.min (Js.len window - 1) (Js.lastIndexOf window separator))) in
  trimTillLastSentence str length =
    if Js.lastIndexOf window "." =? -1 then
      if Js.lastIndexOf window " " =? -1 then Js.substr0 (clean +:+ " ") (Z.of_nat length)
      else cut " "%string
    else cut "."%string.
Proof.
  intros Hlen Hclean. unfold trimTillLastSentence.
  destruct length as [|n]; [lia|]. cbn [Nat.eqb orb].
  destruct (getTextFromHtml str) as [|c r] eqn:E; [done|]. reflexivity.
Qed.

End Trim.

Section BlockFacts.

Lemma pushDetail_eq property label content gs n :
  pushDetail property label content (gs, n)
  = (gs ++ detailTriple property label content n, S n).
Proof. unfold pushDetail, push, detailTriple. by rewrite <- !app_assoc. Qed.

Lemma numberedTriples_nil type first : numberedTriples type first [] = [].
Proof. done. Qed.

Lemma numberedTriples_cons type first leaf leaves :
  numberedTriples type first (leaf :: leaves)
  = detailTriple (type +:+ ":" +:+ fst (fst leaf)) (snd (fst leaf)) (snd leaf) first
    ++ numberedTriples type (S first) leaves.
Proof.
  unfold numberedTriples. rewrite imap_cons. cbn [concat]. rewrite Nat.add_0_r.
  do 2 f_equal. apply imap_ext. intros i x _. simpl. f_equal. lia.
Qed.

Lemma numberedTriples_app type first l1 l2 :
  numberedTriples type first (l1 ++ l2)
  = numberedTriples type first l1 ++ numberedTriples type (first + length l1) l2.
Proof.
  revert first. induction l1 as [|leaf l1 IH]; intros first.
  - simpl. by rewrite Nat.add_0_r.
  - cbn [app length]. rewrite !numberedTriples_cons, IH, <- app_assoc.
    do 3 f_equal. lia.
Qed.

(** The inner loop pushes the numbered triples of the non-empty sub-entries. *)
Lemma fold_eachSubDetail type key sub gs n :
  let leaves := List.filter (fun leaf => negb (isEmpty (snd leaf)))
                  (leavesOf (key, Nested sub)) in
  fold_left (eachSubDetail type key) sub (gs, n)
  = (gs ++ numberedTriples type n leaves, (n + length leaves)%nat).
Proof.
  revert gs n. induction sub as [|[subKey subValue] sub IH]; intros gs n.
  - simpl. by rewrite app_nil_r, Nat.add_0_r.
  - cbn [fold_left eachSubDetail leavesOf map List.filter fst snd].
    destruct (negb (isEmpty subValue)) eqn:E.
    + rewrite pushDetail_eq. cbv zeta in IH. rewrite IH.
      rewrite numberedTriples_cons. cbn [fst snd length leavesOf].
      rewrite <- app_assoc. f_equal. lia.
    + cbv zeta in IH. by rewrite IH.
Qed.

(** The outer loop: the counter is shared by scalar and nested entries. *)
Lemma fold_eachDetail type details gs n :
  fold_left (eachDetail type) details (gs, n)
  = (gs ++ numberedTriples type n (nonEmptyLeaves details),
     (n + length (nonEmptyLeaves details))%nat).
Proof.
  revert gs n. induction details as [|[key value] details IH]; intros gs n.
  - simpl. by rewrite app_nil_r, Nat.add_0_r.
  - cbn [fold_left eachDetail]. unfold nonEmptyLeaves. cbn [flat_map].
    rewrite List.filter_app, numberedTriples_app, length_app.
    fold (nonEmptyLeaves details). destruct value as [s|sub].
    + cbn [leavesOf List.filter snd]. destruct (negb (isEmpty s)) eqn:E.
      * rewrite pushDetail_eq, IH, numberedTriples_cons, numberedTriples_nil.
        cbn [fst snd length]. rewrite <- !app_assoc. cbn [app].
        replace (n + 1)%nat with (S n) by lia. f_equal. lia.
      * rewrite IH, numberedTriples_nil. cbn [length app].
        rewrite Nat.add_0_r. f_equal.
    + pose proof (fold_eachSubDetail type key sub gs n) as Hsub.
      cbv zeta in Hsub. rewrite Hsub, IH, <- app_assoc. f_equal. lia.
Qed.

(** The let-chain of [generateMeta] pushes the blocks in this order. *)
Lemma when_push cond o gs :
  when cond (fun generatedSchema => push generatedSchema o) gs
  = gs ++ (if cond then [o] else []).
Proof. unfold when, push. destruct cond; by rewrite ?app_nil_r. Qed.

Lemma generatedSchema_blocks env seoData options :
  generatedSchema env seoData options
  = beforeDetails seoData options ++ detailsBlock seoData
    ++ urlBlock env seoData options.
Proof.
  unfold generatedSchema. cbv zeta. rewrite fold_eachDetail.
  rewrite !when_push. unfold urlBlock, detailsBlock.
  rewrite (app_assoc (beforeDetails _ _)). do 2 f_equal.
  unfold beforeDetails, titleBlock, keywordsBlock, twitterBlock, facebookBlock,
    descriptionBlock, siteNameBlock, imageBlock, cardBlock, imageTriple.
  unfold when at 1.
  destruct (Seo.keywords seoData) as [[s|l]|];
    destruct (negb (Js.len (str (Seo.image seoData)) =? 0));
    rewrite ?when_push; unfold push; rewrite <- ?app_assoc; reflexivity.
Qed.

(** [s.replace(/\/$/, "")] removes a final slash and nothing else. *)
Lemma dropTrailingSlash_slash b : Js.dropTrailingSlash (b +:+ "/") = b.
Proof.
  induction b as [|c b IH]; [done|].
  change (String c b +:+ "/") with (String c (b +:+ "/")).
  cbn [Js.dropTrailingSlash]. rewrite IH.
  by destruct b.
Qed.

Lemma dropTrailingSlash_other s :
  (forall b, s <> b +:+ "/") -> Js.dropTrailingSlash s = s.
Proof.
  induction s as [|c s IH]; [done|]. intros Hno. destruct s as [|c' s'].
  - simpl. destruct (Ascii.eqb_spec c "/") as [->|Hc]; [|done].
    by destruct (Hno EmptyString).
  - cbn [Js.dropTrailingSlash]. cbn [Js.dropTrailingSlash] in IH. rewrite IH; [done|].
    intros b Hb. apply (Hno (String c b)). by rewrite Hb.
Qed.

End BlockFacts.

(** ** Objects: reading and assigning *)

Section Objects.

Implicit Types (o fields : obj) (k key : string) (v : value) (path : list string).

Lemma field_assignValue_eq o k v : field k (assignValue o k v) = Some v.
Proof.
  induction o as [|[k' w] o IH]; simpl.
  - by rewrite String.eqb_refl.
  - destruct (String.eqb k' k) eqn:E; simpl; by rewrite E.
Qed.

Lemma field_assignValue_ne o k k' v :
  k <> k' -> field k' (assignValue o k v) = field k' o.
Proof.
  intros Hne. induction o as [|[k0 w] o IH]; simpl.
  - by apply String.eqb_neq in Hne as ->.
  - destruct (String.eqb_spec k0 k) as [->|Hk]; simpl; [|by rewrite IH].
    by apply String.eqb_neq in Hne as ->.
Qed.

Lemma field_assignValue o k k' v :
  field k' (assignValue o k v) = if String.eqb k k' then Some v else field k' o.
Proof.
  destruct (String.eqb_spec k k') as [->|Hne];
    [apply field_assignValue_eq|by apply field_assignValue_ne].
Qed.

Lemma field_Some_In o k v : field k o = Some v -> In (k, v) o.
Proof.
  induction o as [|[k' w] o IH]; simpl; [done|].
  destruct (String.eqb_spec k' k) as [->|_]; [intros [= ->]; by left|auto].
Qed.


(** The keys after an assignment: the same, or one more at the end. *)
Lemma keys_assignValue o k v :
  map fst (assignValue o k v)
  = if hasOwn k o then map fst o else map fst o ++ [k].
Proof.
  unfold hasOwn. induction o as [|[k' w] o IH]; cbn [assignValue field map fst]; [done|].
  destruct (String.eqb_spec k' k) as [->|Hne]; cbn [map fst]; [done|].
  rewrite IH. by destruct (field k o).
Qed.

Lemma baseSet_cons o key key' rest v :
  baseSet o (key :: key' :: rest) v
  = assignValue o key
      (VObj (baseSet (match field key o with Some (VObj f) => f | _ => [] end)
               (key' :: rest) v)).
Proof. reflexivity. Qed.


(** The top-level keys after [baseSet]: at most the first segment is new. *)
Lemma keys_baseSet path o v key rest :
  path = key :: rest ->
  map fst (baseSet o path v)
  = if hasOwn key o then map fst o else map fst o ++ [key].
Proof.
  intros ->. destruct rest as [|key' rest]; [apply keys_assignValue|].
  rewrite baseSet_cons. apply keys_assignValue.
Qed.


Lemma hasChar_false_neq c s : Js.hasChar c s = false -> forall t, s <> String c t.
Proof. intros H t ->. simpl in H. by rewrite Ascii.eqb_refl in H. Qed.


Lemma stringToPath_nodot s : Js.hasChar "." s = false -> stringToPath s = [s].
Proof.
  induction s as [|c s IH]; [done|]. simpl.
  intros [Hc Hs]%orb_false_iff. rewrite Hc, (IH Hs). done.
Qed.



Lemma allDigits_nodot s : allDigits s = true -> Js.hasChar "." s = false.
Proof.
  induction s as [|c s IH]; [done|]. simpl. intros [Hc Hs]%andb_true_iff.
  rewrite (IH Hs), orb_false_r.
  destruct (Ascii.eqb_spec c ".") as [->|]; [discriminate Hc|done].
Qed.

Lemma inherited_nodot s :
  existsb (String.eqb s) inherited = true -> Js.hasChar "." s = false.
Proof.
  intros (x & Hx & ->%String.eqb_eq)%existsb_exists.
  unfold inherited in Hx. simpl in Hx.
  repeat (destruct Hx as [<-|Hx]; [reflexivity|]). done.
Qed.

(** A string with a dot is acceptable as a single segment. *)
Lemma plainSegment_dotted s : Js.hasChar "." s = true -> plainSegment s = true.
Proof.
  intros Hdot. unfold plainSegment. apply andb_true_iff. split.
  - destruct (existsb _ _) eqn:E; [|done]. apply inherited_nodot in E. congruence.
  - destruct (allDigits s) eqn:E; [|done].
    apply allDigits_nodot in E. congruence.
Qed.

Lemma set_modelled o key v :
  modelledKey key = true -> set o key v = Some (baseSet o (castPath key o) v).
Proof.
  unfold modelledKey, set. intros [Hbr Hseg]%andb_true_iff.
  apply negb_true_iff in Hbr. rewrite Hbr.
  assert (forallb plainSegment (castPath key o) = true) as ->; [|done].
  unfold castPath, isKey. destruct (Js.hasChar "." key) eqn:Hdot; simpl.
  - destruct (hasOwn key o); [|done]. simpl. by rewrite plainSegment_dotted.
  - by rewrite (stringToPath_nodot _ Hdot) in Hseg.
Qed.

Lemma set_Some o key v o' :
  set o key v = Some o' -> o' = baseSet o (castPath key o) v.
Proof.
  unfold set. destruct (_ || _); [done|]. destruct (forallb _ _); [|done].
  by intros [= <-].
Qed.

(** [getMetaKey] returns the first of the three keys that is truthy. *)
Lemma getMetaKey_find o :
  getMetaKey o = List.find (fun key => truthy (field key o)) metaKeys.
Proof.
  unfold getMetaKey, metaKeys. simpl.
  by destruct (truthy (field "name" o)), (truthy (field "itemProp" o)),
    (truthy (field "property" o)).
Qed.

(** Keys without a dot are assigned directly. *)
Lemma castPath_nodot key o : Js.hasChar "." key = false -> castPath key o = [key].
Proof. intros H. unfold castPath, isKey. by rewrite H. Qed.




End Objects.

(** ** The heap under [addUpdateMeta] *)

(** Membership in lists built with [++] and [::]. *)
Ltac elem_of_lists :=
  rewrite ?elem_of_app, ?elem_of_cons, ?elem_of_app, ?elem_of_nil in *; tauto.

Section Heap.

Implicit Types (h : heap) (source customMetas : list loc) (l meta target : loc).

(** The inner loop changes one object, and changes it to the fields
    assigned one after the other. *)
Lemma assignAll_Some h target fields h' o :
  assignAll h target fields = Some h' -> h !! target = Some o ->
  h' = <[target := assignFields o fields]> h.
Proof.
  revert h o. induction fields as [|[key v] fields IH]; intros h o Hrun Ho.
  - injection Hrun as <-. unfold assignFields. cbn [fold_left]. by rewrite list_insert_id.
  - destruct v as [s|f]; [|done]. cbn [assignAll] in Hrun. rewrite Ho in Hrun.
    cbn [mbind option_bind] in Hrun.
    destruct (set o key (VStr s)) as [o'|] eqn:Hset; [|done].
    cbn [mbind option_bind] in Hrun. apply set_Some in Hset as ->.
    assert (Hlt : (target < length h)%nat) by (by eapply lookup_lt_Some).
    eapply IH in Hrun; [|by apply list_lookup_insert_eq].
    rewrite Hrun, list_insert_insert_eq. done.
Qed.

Lemma assignAll_supported h target fields o :
  h !! target = Some o -> supported fields = true ->
  assignAll h target fields = Some (<[target := assignFields o fields]> h).
Proof.
  revert h o. induction fields as [|[key v] fields IH]; intros h o Ho Hsup.
  - unfold assignFields. cbn [assignAll fold_left]. by rewrite list_insert_id.
  - cbn [supported forallb fst snd] in Hsup.
    apply andb_true_iff in Hsup as [[Hkey Hv]%andb_true_iff Hsup].
    destruct v as [s|f]; [|done]. cbn [assignAll]. rewrite Ho.
    cbn [mbind option_bind]. rewrite (set_modelled _ _ _ Hkey).
    cbn [mbind option_bind].
    assert (Hlt : (target < length h)%nat) by (by eapply lookup_lt_Some).
    erewrite IH; [|by apply list_lookup_insert_eq|done].
    by rewrite list_insert_insert_eq.
Qed.

Lemma find_matchesProperty h metaKey srcValue source target :
  List.find (matchesProperty h metaKey srcValue) source = Some target ->
  target ∈ source /\ exists o, h !! target = Some o /\ fieldIs metaKey srcValue o = true.
Proof.
  intros [Hin Hm]%find_some. split; [by apply list_elem_of_In|].
  unfold matchesProperty in Hm. destruct (h !! target) as [o|]; [eauto|done].
Qed.

Lemma addUpdateOne_result h source meta st' :
  addUpdateOne (h, source) meta = Some st' -> roundResult h source meta st'.
Proof.
  unfold addUpdateOne. destruct (h !! meta) as [metaObj|] eqn:Hmeta; [|done].
  cbn [mbind option_bind].
  destruct (getMetaKey metaObj) as [metaKey|] eqn:Hkey;
    [|intros [= <-]; constructor].
  destruct (field metaKey metaObj) as [[srcValue|?]|] eqn:Hval; try done.
  destruct (List.find _ source) as [target|] eqn:Hfind;
    [|intros [= <-]; constructor].
  apply find_matchesProperty in Hfind as (Hin & o & Ho & Hm).
  destruct (Nat.eqb_spec target meta) as [->|Hne].
  - intros [= <-]. by constructor.
  - destruct (assignAll h target metaObj) as [h'|] eqn:Hrun; [|done].
    cbn [mbind option_bind]. intros [= <-].
    rewrite (assignAll_Some _ _ _ _ _ Hrun Ho). by econstructor.
Qed.

(** Frame: a round leaves every object outside the working list as it is,
    and the working list only grows at its end. *)
Lemma roundResult_frame h source meta h' source' :
  roundResult h source meta (h', source') ->
  length h' = length h
  /\ (exists added, source' = source ++ added)
  /\ (forall l, l ∉ source' -> h' !! l = h !! l).
Proof.
  inversion 1; subst.
  - split; [done|]. split; [by eexists|done].
  - split; [done|]. split; [exists []; by rewrite app_nil_r|done].
  - split; [by rewrite length_insert|]. split; [exists []; by rewrite app_nil_r|].
    intros l Hl. apply list_lookup_insert_ne. by intros ->.
Qed.

Lemma addUpdateMeta_frame customMetas h source h' source' :
  addUpdateMeta (h, source) customMetas = Some (h', source') ->
  length h' = length h
  /\ (exists added, source' = source ++ added)
  /\ (forall l, l ∉ source' -> h' !! l = h !! l).
Proof.
  revert h source. induction customMetas as [|meta customMetas IH]; intros h source.
  - intros [= <- <-]. split; [done|]. split; [exists []; by rewrite app_nil_r|done].
  - cbn [addUpdateMeta]. destruct (addUpdateOne (h, source) meta) as [[h1 source1]|] eqn:E;
      [|done].
    cbn [mbind option_bind]. intros Hrest.
    apply addUpdateOne_result, roundResult_frame in E as (Hlen1 & [a1 ->] & Hfr1).
    apply IH in Hrest as (Hlen & [a2 ->] & Hfr).
    split; [congruence|]. split; [exists (a1 ++ a2); by rewrite app_assoc|].
    intros l Hl. rewrite Hfr by done. apply Hfr1.
    intros Hin. apply Hl. apply elem_of_app. by left.
Qed.

Lemma holdsAt_insert P h ls target o :
  holdsAt P h ls -> P o -> holdsAt P (<[target := o]> h) ls.
Proof.
  intros Hinv Ho l Hl. destruct (Hinv l Hl) as (o' & Ho' & HP).
  destruct (decide (target = l)) as [->|Hne].
  - exists o. split; [|done]. apply list_lookup_insert_eq. by eapply lookup_lt_Some.
  - exists o'. split; [|done]. by rewrite list_lookup_insert_ne.
Qed.

Lemma roundResult_holds P h source meta h' source' others :
  assignStable P ->
  roundResult h source meta (h', source') ->
  holdsAt P h (source ++ meta :: others) ->
  holdsAt P h' (source' ++ meta :: others).
Proof.
  intros Hstable Hround Hinv. inversion Hround; subst.
  - intros l Hl. apply Hinv. elem_of_lists.
  - done.
  - apply holdsAt_insert; [done|].
    destruct (Hinv meta) as (m' & Hm' & HPm); [elem_of_lists|].
    destruct (Hinv target) as (o' & Ho' & HPo); [elem_of_lists|].
    simplify_eq. by eapply Hstable.
Qed.


Lemma find_first {A} (f : A -> bool) before x after :
  Forall (fun y => f y = false) before -> f x = true ->
  List.find f (before ++ x :: after) = Some x.
Proof.
  intros Hb Hx. induction Hb as [|y before Hy _ IH]; simpl.
  - by rewrite Hx.
  - by rewrite Hy.
Qed.

Lemma find_none_Forall {A} (f : A -> bool) (xs : list A) :
  Forall (fun y => f y = false) xs -> List.find f xs = None.
Proof. induction 1 as [|y xs Hy _ IH]; simpl; [done|by rewrite Hy]. Qed.

Lemma addUpdateMeta_singleton st meta :
  addUpdateMeta st [meta] = addUpdateOne st meta.
Proof. cbn [addUpdateMeta]. by destruct (addUpdateOne st meta). Qed.

(** A round that finds a descriptor other than the entry itself. *)
Lemma addUpdateOne_assign h source meta metaObj metaKey srcValue target o :
  h !! meta = Some metaObj ->
  getMetaKey metaObj = Some metaKey ->
  field metaKey metaObj = Some (VStr srcValue) ->
  List.find (matchesProperty h metaKey srcValue) source = Some target ->
  h !! target = Some o -> target <> meta -> supported metaObj = true ->
  addUpdateOne (h, source) meta
  = Some (<[target := assignFields o metaObj]> h, source).
Proof.
  intros Hmeta Hkey Hval Hfind Ho Hne Hsup. unfold addUpdateOne.
  rewrite Hmeta. cbn [mbind option_bind]. rewrite Hkey, Hval, Hfind.
  apply Nat.eqb_neq in Hne as ->.
  by rewrite (assignAll_supported _ _ _ _ Ho Hsup).
Qed.

(** A round that finds nothing to update. *)
Lemma addUpdateOne_append h source meta metaObj :
  h !! meta = Some metaObj ->
  (getMetaKey metaObj = None
   \/ exists metaKey srcValue,
        getMetaKey metaObj = Some metaKey
        /\ field metaKey metaObj = Some (VStr srcValue)
        /\ Forall (fun l => matchesProperty h metaKey srcValue l = false) source) ->
  addUpdateOne (h, source) meta = Some (h, source ++ [meta]).
Proof.
  intros Hmeta Hcase. unfold addUpdateOne. rewrite Hmeta. cbn [mbind option_bind].
  destruct Hcase as [->|(metaKey & srcValue & -> & -> & Hnone)]; [done|].
  by rewrite (find_none_Forall _ _ Hnone).
Qed.

End Heap.

(** ** [_.uniqWith] *)

Section Uniq.

Context {A : Type} (comparator : A -> A -> bool).

Local Abbreviation step :=
  (fun result x => if existsb (fun seen => comparator x seen) result then result
                   else result ++ [x]).

Lemma earlierNeverEqual_snoc l x :
  earlierNeverEqual comparator (l ++ [x])
  <-> earlierNeverEqual comparator l /\ Forall (fun a => comparator x a = false) l.
Proof.
  induction l as [|a l IH]; simpl.
  - split; intros _; repeat constructor.
  - rewrite Forall_app, !Forall_cons, Forall_nil, IH. tauto.
Qed.


Lemma existsb_false_Forall (f : A -> bool) l :
  existsb f l = false <-> Forall (fun a => f a = false) l.
Proof.
  induction l as [|a l IH]; simpl; [by rewrite Forall_nil|].
  rewrite Forall_cons, orb_false_iff, IH. tauto.
Qed.

Lemma uniq_fold_spec array result :
  earlierNeverEqual comparator result ->
  exists kept,
    fold_left step array result = result ++ kept
    /\ sublist kept array
    /\ earlierNeverEqual comparator (result ++ kept)
    /\ (forall l1 x l2, array = l1 ++ x :: l2 ->
          Forall (fun y => comparator x y = false) (result ++ l1) -> x ∈ kept)
    /\ (forall x, x ∈ array -> comparator x x = true ->
          exists y, y ∈ result ++ kept /\ comparator x y = true).
Proof.
  revert result. induction array as [|x array IH]; intros result Hres.
  - exists []. rewrite app_nil_r. repeat split; try done.
    + by intros [|??] ??.
    + by intros x Hx%elem_of_nil.
  - cbn [fold_left]. destruct (existsb _ result) eqn:E.
    + destruct (IH result Hres) as (kept & -> & Hsub & Hne & Hfirst & Hcov).
      exists kept. split; [done|]. split; [by apply sublist_cons|]. split; [done|].
      split.
      * intros [|y l1] x' l2 Hsplit Hall; simplify_eq/=.
        -- rewrite app_nil_r in Hall.
           apply (existsb_false_Forall (fun seen => comparator x' seen)) in Hall.
           congruence.
        -- apply (Hfirst l1 x' l2 eq_refl).
           rewrite Forall_app in Hall |- *. destruct Hall as [? Hall].
           by apply Forall_cons in Hall as [_ ?].
      * intros x' [->|Hx']%elem_of_cons Hrefl; [|by apply Hcov].
        apply existsb_exists in E as (y & Hy & Hc). exists y.
        split; [|done]. apply elem_of_app. left. by apply list_elem_of_In.
    + apply existsb_false_Forall in E.
      destruct (IH (result ++ [x])) as (kept & -> & Hsub & Hne & Hfirst & Hcov).
      { by apply earlierNeverEqual_snoc. }
      exists (x :: kept). rewrite <- !app_assoc in *. cbn [app] in *.
      split; [done|]. split; [by apply sublist_skip|]. split; [done|]. split.
      * intros [|y l1] x' l2 Hsplit Hall; simplify_eq/=; [by left|].
        right. apply (Hfirst l1 x' l2 eq_refl).
        by rewrite <- app_assoc.
      * intros x' [->|Hx']%elem_of_cons Hrefl.
        -- exists x. split; [|done]. elem_of_lists.
        -- by apply Hcov.
Qed.

(** [_.uniqWith]: a subsequence of the array in which no element is
    related to an earlier one, which keeps every element that is related
    to nothing before it and drops only elements related to a kept one. *)
Lemma uniqWith_spec array :
  sublist (uniqWith comparator array) array
  /\ earlierNeverEqual comparator (uniqWith comparator array)
  /\ (forall l1 x l2, array = l1 ++ x :: l2 ->
        Forall (fun y => comparator x y = false) l1 -> x ∈ uniqWith comparator array)
  /\ (forall x, x ∈ array -> comparator x x = true ->
        exists y, y ∈ uniqWith comparator array /\ comparator x y = true).
Proof.
  unfold uniqWith.
  destruct (uniq_fold_spec array [] I) as (kept & -> & Hsub & Hne & Hfirst & Hcov).
  done.
Qed.

End Uniq.

(** ** Structural equality *)

Section Equality.














End Equality.

(** ** Identifying keys *)

Section IdentifyingKeys.

Implicit Types (o fields : obj) (k key K : string) (v : value).

Lemma isMetaKey_cases k :
  isMetaKey k = true -> k = "name"%string \/ k = "itemProp"%string \/ k = "property"%string.
Proof.
  unfold isMetaKey, metaKeys. cbn [existsb].
  destruct (String.eqb_spec k "name"); [auto|].
  destruct (String.eqb_spec k "itemProp"); [auto|].
  destruct (String.eqb_spec k "property"); [auto|done].
Qed.










Lemma getMetaKey_Some o K :
  getMetaKey o = Some K -> isMetaKey K = true /\ hasOwn K o = true.
Proof.
  rewrite getMetaKey_find. intros [Hin Ht]%find_some. split.
  - unfold isMetaKey. apply existsb_exists. exists K. by rewrite String.eqb_refl.
  - unfold hasOwn. by destruct (field K o).
Qed.




End IdentifyingKeys.

(** ** Plain entries: the call always has a result *)

Section Plain.

Lemma plainEntry_supported o : plainEntry o = true -> supported o = true.
Proof.
  unfold plainEntry, supported. rewrite !forallb_forall. intros H kv Hin.
  specialize (H kv Hin). unfold plainField in H.
  apply andb_true_iff in H as [[-> _]%andb_true_iff ->]. done.
Qed.

Lemma plainEntry_assignValue o k s :
  plainEntry o = true -> plainField (k, VStr s) = true ->
  plainEntry (assignValue o k (VStr s)) = true.
Proof.
  unfold plainEntry. intros Ho Hk. induction o as [|[k' w] o IH]; cbn [assignValue].
  - cbn [forallb]. by rewrite Hk.
  - cbn [forallb] in Ho. apply andb_true_iff in Ho as [Hw Ho].
    destruct (String.eqb_spec k' k) as [->|_]; cbn [forallb].
    + by rewrite Hk, Ho.
    + by rewrite Hw, IH.
Qed.

Lemma plainEntry_assignFields o fields :
  plainEntry o = true -> plainEntry fields = true ->
  plainEntry (assignFields o fields) = true.
Proof.
  unfold assignFields. revert o.
  induction fields as [|[k v] fields IH]; intros o Ho Hf; [done|].
  cbn [plainEntry forallb] in Hf. apply andb_true_iff in Hf as [Hkv Hf].
  cbn [fold_left fst snd]. apply IH; [|done].
  pose proof Hkv as Hkv'. unfold plainField in Hkv'. cbn [fst snd] in Hkv'.
  apply andb_true_iff in Hkv' as [[_ Hdot%negb_true_iff]%andb_true_iff Hstr].
  destruct v as [s|?]; [|done]. rewrite castPath_nodot by done.
  by apply plainEntry_assignValue.
Qed.

Lemma plainEntry_stable : assignStable (fun o => plainEntry o = true).
Proof. intros o metaObj ? ? Ho Hm _ _ _. by apply plainEntry_assignFields. Qed.


Lemma plainEntry_field o k v :
  plainEntry o = true -> field k o = Some v -> exists s, v = VStr s.
Proof.
  unfold plainEntry. rewrite forallb_forall. intros H Hin%field_Some_In.
  specialize (H _ Hin). unfold plainField in H. cbn [snd] in H.
  destruct v as [s|?]; [by exists s|]. by rewrite andb_false_r in H.
Qed.

(** On plain entries a round of [addUpdateMeta] always has a result. *)
Lemma addUpdateOne_total (h : heap) source meta others :
  holdsAt (fun o => plainEntry o = true) h (source ++ meta :: others) ->
  exists st', addUpdateOne (h, source) meta = Some st'.
Proof.
  intros Hinv. destruct (Hinv meta) as (metaObj & Hmeta & Hplain); [elem_of_lists|].
  unfold addUpdateOne. rewrite Hmeta. cbn [mbind option_bind].
  destruct (getMetaKey metaObj) as [metaKey|] eqn:Hkey; [|by eexists].
  destruct (getMetaKey_Some _ _ Hkey) as [_ Hown]. unfold hasOwn in Hown.
  destruct (field metaKey metaObj) as [v|] eqn:Hval; [|done].
  destruct (plainEntry_field _ _ _ Hplain Hval) as [srcValue ->].
  destruct (List.find _ source) as [target|] eqn:Hfind; [|by eexists].
  destruct (Nat.eqb target meta); [by eexists|].
  apply find_matchesProperty in Hfind as (_ & o & Ho & _).
  rewrite (assignAll_supported _ _ _ _ Ho (plainEntry_supported _ Hplain)).
  by eexists.
Qed.

Lemma addUpdateMeta_total customMetas (h : heap) source others :
  holdsAt (fun o => plainEntry o = true) h (source ++ customMetas ++ others) ->
  exists st', addUpdateMeta (h, source) customMetas = Some st'.
Proof.
  revert h source others.
  induction customMetas as [|meta customMetas IH]; intros h source others Hinv.
  - by eexists.
  - cbn [addUpdateMeta].
    destruct (addUpdateOne_total h source meta (customMetas ++ others) Hinv)
      as [[h1 source1] Hone].
    rewrite Hone. cbn [mbind option_bind].
    apply (IH h1 source1 (meta :: others)).
    pose proof (roundResult_holds _ _ _ _ _ _ (customMetas ++ others)
                  plainEntry_stable (addUpdateOne_result _ _ _ _ Hone) Hinv) as H1.
    intros l Hl. apply H1. elem_of_lists.
Qed.

End Plain.

(** ** The whole call *)

Section WorkingList.

Variables (configSeo : Seo.t) (env : Env.t) (h : heap) (data : Seo.t)
  (options : Options.t).

Let seoData := defaults data (seoSchema configSeo).
Let generated := generatedSchema env seoData options.
Let configMeta := getOr [] (Seo.meta (seoSchema configSeo)).
Let userMeta := getOr [] (Seo.meta seoData).

Lemma isGenerated_name idValue content : isGenerated (descriptor "name" idValue content).
Proof. by exists "name"%string, idValue, content. Qed.

Lemma isGenerated_property idValue content :
  isGenerated (descriptor "property" idValue content).
Proof. by exists "property"%string, idValue, content. Qed.

Lemma isGenerated_itemProp idValue content :
  isGenerated (descriptor "itemProp" idValue content).
Proof. by exists "itemProp"%string, idValue, content. Qed.

Lemma numberedTriples_generated type first leaves :
  Forall isGenerated (numberedTriples type first leaves).
Proof.
  revert first. induction leaves as [|leaf leaves IH]; intros first.
  - constructor.
  - rewrite numberedTriples_cons. apply Forall_app. split; [|apply IH].
    unfold detailTriple.
    repeat constructor; auto using isGenerated_name, isGenerated_property.
Qed.

Lemma generatedSchema_generated env' seoData' options' :
  Forall isGenerated (generatedSchema env' seoData' options').
Proof.
  rewrite generatedSchema_blocks.
  unfold beforeDetails, titleBlock, keywordsBlock, twitterBlock, facebookBlock,
    descriptionBlock, siteNameBlock, imageBlock, imageTriple, cardBlock, detailsBlock,
    urlBlock.
  repeat (apply Forall_app; split);
    try apply numberedTriples_generated;
    repeat match goal with
           | |- Forall _ (match ?x with _ => _ end) => destruct x
           end;
    repeat constructor;
    auto using isGenerated_name, isGenerated_property, isGenerated_itemProp.
Qed.

(** The merged data defines every key of the schema, so [str] and
    [getOr] never meet a missing key where the code reads one without a
    default. *)
Lemma merged_defined :
  is_Some (Seo.title seoData) /\ is_Some (Seo.description seoData)
  /\ is_Some (Seo.keywords seoData) /\ is_Some (Seo.image seoData)
  /\ is_Some (Seo.site_name seoData) /\ is_Some (Seo.twitter seoData)
  /\ is_Some (Seo.facebook seoData) /\ is_Some (Seo.type seoData)
  /\ is_Some (Seo.type_details seoData).
Proof.
  unfold seoData, seoSchema, defaults, schemaLiteral, orDefault. cbn.
  repeat split;
    match goal with
    | |- is_Some (match ?a with _ => _ end) => destruct a
    end; try done;
    match goal with
    | |- is_Some (match ?a with _ => _ end) => by destruct a
    end.
Qed.

Lemma workingList_rounds h' working :
  workingList configSeo env h data options = Some (h', working) ->
  exists h1 working1,
    addUpdateMeta (h ++ generated, seq (length h) (length generated)) configMeta
    = Some (h1, working1)
    /\ addUpdateMeta (h1, working1) userMeta = Some (h', working).
Proof.
  unfold workingList. fold seoData generated configMeta userMeta.
  destruct (addUpdateMeta _ configMeta) as [[h1 working1]|]; [|done].
  cbn [mbind option_bind]. eauto.
Qed.




(** The generated descriptors are in the working list, in order, at its front. *)
Lemma workingList_prefix h' working :
  workingList configSeo env h data options = Some (h', working) ->
  exists added, working = seq (length h) (length generated) ++ added.
Proof.
  intros (h1 & working1 & Hconfig & Huser)%workingList_rounds.
  apply addUpdateMeta_frame in Hconfig as (_ & [a1 ->] & _).
  apply addUpdateMeta_frame in Huser as (_ & [a2 ->] & _).
  exists (a1 ++ a2). by rewrite app_assoc.
Qed.





End WorkingList.

(** ** Auxiliary facts about the outcome *)



(** ** Documented properties *)




(** C2, as worded, fails: with [seoData.url] the empty string and
    [options.url] set, the wording has [og:url] emitted with
    [options.url], but the returned list has no [og:url] descriptor at all. *)
Lemma C2_empty_url_is_not_replaced :
  claimedUrl server c2Data c2Options = "http://a.com/p"%string
  /\ exists r, generateMeta noSeo server [] c2Data c2Options = Some r
      /\ length (descriptors r) = length (outMeta r)
      /\ existsb (fieldIs "property" "og:url") (descriptors r) = false.
Proof. split; [reflexivity|]. eexists. split; [reflexivity|]. by vm_compute. Qed.

(** C2, amended.  The page address is [seoData.url] if that key is
    defined (even as the empty string), otherwise [options.url]; if the
    result is empty and the code runs in a browser, the current address
    is taken.  The generated list is the list that is generated for an
    empty address, followed by one [og:url] descriptor with the resolved
    address if and only if that address is non-empty after trimming. *)
Theorem C2_url_resolution
    (configSeo : Seo.t) (env : Env.t) (data : Seo.t) (options : Options.t) :
  let seoData := defaults data (seoSchema configSeo) in
  let url :=
    match Seo.url seoData with
    | Some u => u
    | None => match Options.url options with Some u => u | None => EmptyString end
    end in
  let resolved :=
    if String.eqb url EmptyString && Env.isBrowser env
    then match Env.href env with Some a => a | None => EmptyString end
    else url in
  resolveUrl env seoData options = resolved
  /\ generatedSchema env seoData options
     = generatedSchema server (withUrl (Some EmptyString) seoData) options
       ++ (if String.eqb (Js.trim resolved) EmptyString then []
           else [descriptor "property" "og:url" resolved]).
Proof.
  intros seoData url resolved.
  assert (Hr : resolveUrl env seoData options = resolved).
  { unfold resolveUrl, resolved, url, str. rewrite len_eqb_0.
    by destruct (Seo.url seoData) as [u|], (Options.url options) as [v|],
      (Env.href env). }
  split; [done|]. rewrite !generatedSchema_blocks. unfold urlBlock at 1. rewrite Hr.
  rewrite len_eqb_0.
  change (urlBlock server (withUrl (Some EmptyString) seoData) options) with (@nil obj).
  rewrite app_nil_r, <- app_assoc.
  change (beforeDetails (withUrl (Some EmptyString) seoData) options)
    with (beforeDetails seoData options).
  change (detailsBlock (withUrl (Some EmptyString) seoData)) with (detailsBlock seoData).
  do 2 f_equal. by destruct (String.eqb (Js.trim resolved) _).
Qed.




(** The custom entries of the configuration are pushed into the working
    list as they are, so a page entry with the same identifying value is
    assigned onto the configuration's own object: after the call
    [config.seo.meta[0]] reads [content: "none"]. *)
Example config_entry_is_assigned_to :
  exists r,
    generateMeta sharedConfig server sharedHeap sharedData noOptions = Some r
    /\ sharedHeap !! 0%nat = Some [("name", VStr "robots"); ("content", VStr "all")]%string
    /\ outHeap r !! 0%nat = Some [("name", VStr "robots"); ("content", VStr "none")]%string.
Proof. eexists. split; [reflexivity|]. by vm_compute. Qed.

(** C4.  For a positive [length], [trimTillLastSentence] cuts the cleaned
    string (tags stripped, trimmed) inside the window made of the first
    [length + 1] characters of the cleaned string followed by a space:
    before the last ["."] of the window if there is one, otherwise before
    its last space, and otherwise after exactly [length] characters of the
    cleaned string.  The two documented calls give ["Tirth Bodawala"] and
    ["Tirth"]. *)
Theorem C4_trim_prefers_sentence_then_word (str : string) (length : nat) :
  (0 < length)%nat ->
  let clean := getTextFromHtml str in
  let window := Js.substr0 (clean +:+ " ") (Z.of_nat length + 1) in
  let result := trimTillLastSentence str length in
  (clean = EmptyString -> result = EmptyString)
  /\ (clean <> EmptyString ->
      (forall pre post,
          window = pre +:+ "." +:+ post -> Js.hasChar "." post = false ->
          result = Js.trim pre)
      /\ (Js.hasChar "." window = false ->
          forall pre post,
            window = pre +:+ " " +:+ post -> Js.hasChar " " post = false ->
            result = Js.trim pre)
      /\ (Js.hasChar "." window = false -> Js.hasChar " " window = false ->
          result = String.substring 0 length clean
          /\ String.length result = length))
  /\ trimTillLastSentence "Tirth Bodawala." 14 = "Tirth Bodawala"%string
  /\ trimTillLastSentence "Tirth Bodawala" 5 = "Tirth"%string.
Proof.
  intros Hlen clean window result. split; [|split; [|done]].
  - intros Hclean. unfold result, trimTillLastSentence. fold clean. rewrite Hclean.
    by rewrite orb_true_r.
  - intros Hclean.
    pose proof (trimTillLastSentence_unfold str length Hlen Hclean) as Hres.
    cbv zeta in Hres. fold clean window result in Hres.
    split; [|split].
    + intros pre post Hw Hpost. rewrite Hres.
      change ("." +:+ post) with (String "." post) in Hw.
      rewrite Hw at 1. rewrite (lastIndexOf_last _ _ _ Hpost).
      destruct (Z.eqb_spec (Js.len pre) (-1)) as [E|_]; [unfold Js.len in E; lia|].
      rewrite Hw. by rewrite (cut_at_last _ _ _ Hpost).
    + intros Hdot pre post Hw Hpost. rewrite Hres.
      rewrite (lastIndexOf_absent _ _ Hdot). cbn [Z.eqb Pos.eqb].
      change (" " +:+ post) with (String " " post) in Hw.
      rewrite Hw at 1. rewrite (lastIndexOf_last _ _ _ Hpost).
      destruct (Z.eqb_spec (Js.len pre) (-1)) as [E|_]; [unfold Js.len in E; lia|].
      rewrite Hw. by rewrite (cut_at_last _ _ _ Hpost).
    + intros Hdot Hsp. rewrite Hres.
      rewrite (lastIndexOf_absent _ _ Hdot), (lastIndexOf_absent _ _ Hsp).
      cbn [Z.eqb Pos.eqb].
      unfold window, Js.substr0 in Hsp. apply hasChar_window in Hsp.
      unfold Js.substr0. rewrite Nat2Z.id.
      rewrite substring0_append by lia. split; [done|].
      rewrite length_substring0. lia.
Qed.

Lemma C4_trim_prefers_sentence_then_word_witness :
  trimTillLastSentence "Hello world. This is it" 15 = "Hello world"%string
  /\ trimTillLastSentence "one two three" 9 = "one two"%string
  /\ trimTillLastSentence "abcdefgh" 3 = "abc"%string.
Proof.
  split; [|split].
  - destruct (C4_trim_prefers_sentence_then_word "Hello world. This is it" 15 ltac:(lia))
      as (_ & H & _).
    destruct (H ltac:(discriminate)) as (H1 & _).
    exact (H1 "Hello world"%string " Thi"%string eq_refl eq_refl).
  - destruct (C4_trim_prefers_sentence_then_word "one two three" 9 ltac:(lia))
      as (_ & H & _).
    destruct (H ltac:(discriminate)) as (_ & H2 & _).
    exact (H2 eq_refl "one two"%string "th"%string eq_refl eq_refl).
  - destruct (C4_trim_prefers_sentence_then_word "abcdefgh" 3 ltac:(lia))
      as (_ & H & _).
    destruct (H ltac:(discriminate)) as (_ & _ & H3).
    exact (proj1 (H3 eq_refl eq_refl)).
Defined.






(** C7.  With a non-empty merged [image], the generated list has the
    descriptors [itemProp:image], [twitter:image:src] and [og:image] next
    to each other, all with the same address: the image itself if it
    starts with ["http"], otherwise [options.baseUrl] without its final
    slash, then ["/"] unless the image starts with one, then the image. *)
Theorem C7_image_resolution
    (configSeo : Seo.t) (env : Env.t) (data : Seo.t) (options : Options.t)
    (image base : string) :
  let seoData := defaults data (seoSchema configSeo) in
  Seo.image seoData = Some image -> image <> EmptyString ->
  (Options.baseUrl options = base +:+ "/"
   \/ (base = Options.baseUrl options /\ forall b, Options.baseUrl options <> b +:+ "/")) ->
  let resolved :=
    if Js.startsWith image "http" then image
    else base +:+ (if Js.startsWith image "/" then "" else "/") +:+ image in
  (exists before after,
      generatedSchema env seoData options
      = before
        ++ [descriptor "itemProp" "image" resolved;
            descriptor "name" "twitter:image:src" resolved;
            descriptor "property" "og:image" resolved]
        ++ after)
  /\ fullImageUrl "pic.jpg" (Js.dropTrailingSlash "http://x.com/") = "http://x.com/pic.jpg"%string
  /\ forall baseUrl,
       fullImageUrl "http://y.com/pic.jpg" (Js.dropTrailingSlash baseUrl)
       = "http://y.com/pic.jpg"%string.
Proof.
  intros seoData Himg Hne Hbase resolved. split; [|by split].
  exists (titleBlock seoData ++ keywordsBlock seoData ++ twitterBlock seoData
          ++ facebookBlock seoData ++ descriptionBlock seoData ++ siteNameBlock seoData).
  exists (cardBlock seoData ++ detailsBlock seoData ++ urlBlock env seoData options).
  assert (Hb : Js.dropTrailingSlash (Options.baseUrl options) = base).
  { destruct Hbase as [->|[-> Hno]];
      [apply dropTrailingSlash_slash|by apply dropTrailingSlash_other]. }
  assert (Hr : fullImageUrl image base = resolved).
  { unfold fullImageUrl, resolved.
    by destruct (Js.startsWith image "http"), (Js.startsWith image "/"). }
  rewrite generatedSchema_blocks. unfold beforeDetails, imageBlock.
  rewrite Himg, Hb. cbv zeta. cbn [str getOr]. rewrite Hr. clear Hr Himg.
  destruct image as [|c r]; [done|].
  cbn [Js.len String.length negb]. unfold imageTriple.
  replace (Z.of_nat (S (String.length r)) =? 0) with false
    by (symmetry; apply Z.eqb_neq; lia).
  cbn [negb]. by rewrite <- !app_assoc.
Qed.

Lemma C7_image_resolution_witness :
  exists before after,
    generatedSchema server (defaults c7Data (seoSchema noSeo)) c7Options
    = before
      ++ [descriptor "itemProp" "image" "http://x.com/pic.jpg";
          descriptor "name" "twitter:image:src" "http://x.com/pic.jpg";
          descriptor "property" "og:image" "http://x.com/pic.jpg"]
      ++ after.
Proof.
  exact (proj1 (C7_image_resolution noSeo server c7Data c7Options "pic.jpg" "http://x.com"
                  eq_refl ltac:(discriminate) (or_introl eq_refl))).
Defined.

(** C8.  After [og:type], the generated list has one triple per
    non-empty leaf of [type_details], in iteration order (sub-entries of a
    mapping in their own order, in place of the entry): [{type}:{key}] or
    [{type}:{key}:{subKey}] with the value, [twitter:dataN] with the value
    and [twitter:labelN] with the key or sub-key, where [N] is one more
    than the number of non-empty leaves visited before.  At most the
    [og:url] descriptor follows.  A scalar and a nested non-empty leaf
    get the numbers 1 and 2. *)
Theorem C8_type_details_counter
    (configSeo : Seo.t) (env : Env.t) (data : Seo.t) (options : Options.t) :
  let seoData := defaults data (seoSchema configSeo) in
  let type := str (Seo.type seoData) in
  let leaves := nonEmptyLeaves (getOr [] (Seo.type_details seoData)) in
  (exists before after,
      generatedSchema env seoData options
      = before ++ [descriptor "property" "og:type" type]
        ++ numberedTriples type 1 leaves ++ after
      /\ (length after <= 1)%nat)
  /\ (forall i path label content,
        leaves !! i = Some (path, label, content) ->
        content <> EmptyString
        /\ exists before after,
            generatedSchema env seoData options
            = before
              ++ [descriptor "property" (type +:+ ":" +:+ path) content;
                  descriptor "name" ("twitter:data" +:+ Js.showNat (S i)) content;
                  descriptor "name" ("twitter:label" +:+ Js.showNat (S i)) label]
              ++ after)
  /\ (forall key value key' subKey subValue,
        value <> EmptyString -> subValue <> EmptyString ->
        numberedTriples type 1
          (nonEmptyLeaves [(key, Leaf value); (key', Nested [(subKey, subValue)])])
        = [descriptor "property" (type +:+ ":" +:+ key) value;
           descriptor "name" "twitter:data1" value;
           descriptor "name" "twitter:label1" key;
           descriptor "property" (type +:+ ":" +:+ key' +:+ ":" +:+ subKey) subValue;
           descriptor "name" "twitter:data2" subValue;
           descriptor "name" "twitter:label2" subKey]).
Proof.
  intros seoData type leaves. split; [|split].
  - exists (titleBlock seoData ++ keywordsBlock seoData ++ twitterBlock seoData
            ++ facebookBlock seoData ++ descriptionBlock seoData ++ siteNameBlock seoData
            ++ imageBlock seoData options
            ++ [descriptor "name" "twitter:card"
                  (if negb (Js.len (str (Seo.image seoData)) =? 0)
                   then "summary_large_image" else "summary")]).
    exists (urlBlock env seoData options). split.
    + rewrite generatedSchema_blocks. unfold beforeDetails, cardBlock, detailsBlock.
      fold type leaves. by rewrite <- !app_assoc.
    + unfold urlBlock. destruct (negb _); simpl; lia.
  - intros i path label content Hi. split.
    + apply list_elem_of_lookup_2, list_elem_of_In, List.filter_In in Hi as [_ Hi].
      unfold isEmpty in Hi. simpl in Hi. intros ->. done.
    + apply list_elem_of_split_length in Hi as (l1 & l2 & Hl & Hlen).
      exists (beforeDetails seoData options ++ numberedTriples type 1 l1).
      exists (numberedTriples type (S (S i)) l2 ++ urlBlock env seoData options).
      rewrite generatedSchema_blocks. unfold detailsBlock. fold type leaves.
      rewrite Hl, numberedTriples_app, numberedTriples_cons. cbn [fst snd].
      unfold detailTriple. rewrite <- Hlen. rewrite <- !app_assoc. done.
  - intros key value key' subKey subValue Hv Hs. unfold nonEmptyLeaves.
    cbn [flat_map leavesOf map app List.filter fst snd]. unfold isEmpty.
    apply String.eqb_neq in Hv, Hs. rewrite Hv, Hs. reflexivity.
Qed.

Lemma C8_type_details_counter_witness :
  exists before after,
    generatedSchema server (defaults c8Data (seoSchema noSeo)) noOptions
    = before
      ++ [descriptor "property" "article:author:last" "Doe";
          descriptor "name" "twitter:data2" "Doe";
          descriptor "name" "twitter:label2" "last"]
      ++ after.
Proof.
  exact (proj2 (proj1 (proj2 (C8_type_details_counter noSeo server c8Data noOptions))
                  1%nat "author:last"%string "last"%string "Doe"%string eq_refl)).
Defined.

(** C9.  For a positive [length], the string that [trimTillLastSentence]
    returns has at most [length] characters, whichever of the three cuts
    is taken. *)
Theorem C9_trim_length_bound (str : string) (length : nat) :
  (0 < length)%nat ->
  (String.length (trimTillLastSentence str length) <= length)%nat.
Proof.
  intros Hlen. destruct (string_dec (getTextFromHtml str) EmptyString) as [E|E].
  - unfold trimTillLastSentence. rewrite E. rewrite orb_true_r. simpl. lia.
  - rewrite (trimTillLastSentence_unfold str length Hlen E).
    set (window := Js.substr0 _ (Z.of_nat length + 1)).
    assert (Hw : Js.len window <= Z.of_nat length + 1).
    { unfold window. rewrite len_substr0. lia. }
    assert (Hcut : forall separator,
      (String.length (Js.trim (Js.substr0 window
         (Z.min (Js.len window - 1) (Js.lastIndexOf window separator)))) <= length)%nat).
    { intros separator. etrans; [apply length_trim|].
      unfold Js.substr0. rewrite length_substring0. unfold Js.len in *. lia. }
    destruct (_ =? -1); [destruct (_ =? -1)|]; try apply Hcut.
    unfold Js.substr0. rewrite length_substring0. lia.
Qed.

Lemma C9_trim_length_bound_witness :
  (String.length (trimTillLastSentence "Tirth Bodawala" 5) <= 5)%nat.
Proof. apply C9_trim_length_bound. lia. Defined.

(** C10.  When several descriptors of the working list have the entry's
    value at its identifying key, only the first of them in list order is
    assigned to; every other object, the later matching descriptors among
    them, is left as it was, and the entry is not appended. *)
Theorem C10_only_first_match_is_updated
    (h : heap) (source before between after : list loc) (meta first later : loc)
    (metaObj o : obj) (metaKey srcValue : string) :
  h !! meta = Some metaObj ->
  getMetaKey metaObj = Some metaKey ->
  field metaKey metaObj = Some (VStr srcValue) ->
  source = before ++ first :: between ++ later :: after ->
  Forall (fun l => matchesProperty h metaKey srcValue l = false) before ->
  matchesProperty h metaKey srcValue first = true ->
  matchesProperty h metaKey srcValue later = true ->
  later <> first ->
  h !! first = Some o ->
  first = meta \/ supported metaObj = true ->
  exists h',
    addUpdateMeta (h, source) [meta] = Some (h', source)
    /\ (first <> meta -> h' !! first = Some (assignFields o metaObj))
    /\ h' !! later = h !! later
    /\ forall l, l <> first -> h' !! l = h !! l.
Proof.
  intros Hmeta Hkey Hval -> Hbefore Hfirst Hlater Hne Ho Hsup.
  rewrite addUpdateMeta_singleton.
  pose proof (find_first _ _ _ (between ++ later :: after) Hbefore Hfirst) as Hfind.
  destruct (decide (first = meta)) as [->|Hfm].
  - exists h. split; [|done]. unfold addUpdateOne.
    rewrite Hmeta. cbn [mbind option_bind]. rewrite Hkey, Hval, Hfind.
    by rewrite Nat.eqb_refl.
  - destruct Hsup as [?|Hsup]; [done|].
    exists (<[first := assignFields o metaObj]> h). split; [|split; [|split]].
    + by eapply addUpdateOne_assign.
    + intros _. apply list_lookup_insert_eq. by eapply lookup_lt_Some.
    + by apply list_lookup_insert_ne.
    + intros l Hl. by apply list_lookup_insert_ne.
Qed.

Lemma C10_only_first_match_is_updated_witness :
  exists h',
    addUpdateMeta
      ([[("name", VStr "robots"); ("content", VStr "all")];
        [("name", VStr "robots"); ("content", VStr "none")];
        [("name", VStr "robots"); ("content", VStr "noindex")]]%string,
       [0%nat; 1%nat]) [2%nat]
    = Some (h', [0%nat; 1%nat])
    /\ h' !! 0%nat = Some [("name", VStr "robots"); ("content", VStr "noindex")]%string
    /\ h' !! 1%nat = Some [("name", VStr "robots"); ("content", VStr "none")]%string.
Proof.
  destruct (C10_only_first_match_is_updated
              [[("name", VStr "robots"); ("content", VStr "all")];
               [("name", VStr "robots"); ("content", VStr "none")];
               [("name", VStr "robots"); ("content", VStr "noindex")]]%string
              [0%nat; 1%nat] [] [] [] 2%nat 0%nat 1%nat
              [("name", VStr "robots"); ("content", VStr "noindex")]%string
              [("name", VStr "robots"); ("content", VStr "all")]%string
              "name" "robots"
              eq_refl eq_refl eq_refl eq_refl (Forall_nil_2 _) eq_refl eq_refl
              ltac:(discriminate) eq_refl (or_intror eq_refl))
    as (h' & Hrun & Hfirst & Hlater & _).
  exists h'. split; [exact Hrun|]. split; [|exact Hlater].
  exact (Hfirst ltac:(discriminate)).
Defined.

(** ** Further properties: white space and tags *)

Section Tags.

Implicit Types (s t a b p rest : string) (c : ascii).

Lemma append_assoc' a b t : (a +:+ b) +:+ t = a +:+ (b +:+ t).
Proof. induction a as [|c a IH]; [done|]. rewrite !append_cons. by rewrite IH. Qed.

Lemma append_empty_r s : s +:+ EmptyString = s.
Proof. induction s as [|c s IH]; [done|]. rewrite append_cons. by rewrite IH. Qed.

Lemma length_stripTags inTag s :
  (String.length (Js.stripTags inTag s) <= String.length s)%nat.
Proof.
  revert inTag; induction s as [|c s IH]; intros inTag; simpl; [lia|].
  pose proof (IH true). pose proof (IH false).
  destruct inTag; [destruct (Ascii.eqb c ">")|destruct (Ascii.eqb c "<" && Js.tagCloses s)];
    simpl; lia.
Qed.

(** A text that the scan leaves as it is: no match starts at its first
    character, and the rest is left as it is. *)
Lemma stripTags_cons_inv c s :
  Js.stripTags false (String c s) = String c s ->
  Ascii.eqb c "<" && Js.tagCloses s = false /\ Js.stripTags false s = s.
Proof.
  simpl. destruct (Ascii.eqb c "<" && Js.tagCloses s).
  - intros H. pose proof (length_stripTags true s) as Hlen. rewrite H in Hlen.
    simpl in Hlen. lia.
  - by intros [= ->].
Qed.

Lemma tagCloses_stripTags s :
  Js.tagCloses s = false -> Js.tagCloses (Js.stripTags false s) = false.
Proof.
  induction s as [|c s IH]; [done|]. simpl.
  destruct (Ascii.eqb c ">") eqn:E1; [done|].
  destruct (Ascii.eqb_spec c "013") as [->|E2].
  - done.
  - intros H. rewrite H, andb_false_r. simpl. rewrite E1.
    destruct (Ascii.eqb_spec c "013"); [done|]. by apply IH.
Qed.

(** What the replacement leaves has no match any more. *)
Lemma stripTags_idem inTag s :
  Js.stripTags false (Js.stripTags inTag s) = Js.stripTags inTag s.
Proof.
  revert inTag. induction s as [|c s IH]; intros inTag; [by destruct inTag|].
  destruct inTag; simpl.
  - destruct (Ascii.eqb c ">"); apply IH.
  - destruct (Ascii.eqb c "<" && Js.tagCloses s) eqn:E; [apply IH|].
    simpl. rewrite IH.
    apply andb_false_iff in E as [->|E]; [done|].
    by rewrite (tagCloses_stripTags _ E), andb_false_r.
Qed.

Lemma tagCloses_prefix p rest :
  Js.tagCloses (p +:+ rest) = false -> Js.tagCloses p = false.
Proof.
  induction p as [|c p IH]; [done|]. rewrite append_cons. simpl.
  destruct (Ascii.eqb c ">"); [done|]. destruct (Ascii.eqb c "013"); [done|]. apply IH.
Qed.

(** The start and the end of a text without match have no match. *)
Lemma stripTags_prefix p rest :
  Js.stripTags false (p +:+ rest) = p +:+ rest -> Js.stripTags false p = p.
Proof.
  induction p as [|c p IH]; [done|]. rewrite append_cons.
  intros [Hc Hp]%stripTags_cons_inv. simpl.
  replace (Ascii.eqb c "<" && Js.tagCloses p) with false.
  - by rewrite IH.
  - symmetry. apply andb_false_iff in Hc as [->|Hc]; [done|].
    by rewrite (tagCloses_prefix _ _ Hc), andb_false_r.
Qed.

Lemma stripTags_suffix p rest :
  Js.stripTags false (p +:+ rest) = p +:+ rest -> Js.stripTags false rest = rest.
Proof.
  induction p as [|c p IH]; [done|]. rewrite append_cons.
  intros [_ Hp]%stripTags_cons_inv. by apply IH.
Qed.

Lemma trimStart_suffix s : exists white, s = white +:+ Js.trimStart s.
Proof.
  induction s as [|c s [w IH]]; [by exists EmptyString|]. simpl.
  destruct (Js.is_white c).
  - exists (String c w). rewrite append_cons. by rewrite <- IH.
  - by exists EmptyString.
Qed.

Lemma trimEnd_prefix s : exists white, s = Js.trimEnd s +:+ white.
Proof.
  induction s as [|c s [w IH]]; [by exists EmptyString|]. simpl.
  destruct (Js.trimEnd s) as [|a r] eqn:E.
  - destruct (Js.is_white c).
    + by exists (String c s).
    + exists s. done.
  - exists w. rewrite append_cons. by rewrite <- IH.
Qed.

Lemma stripTags_trim s :
  Js.stripTags false s = s -> Js.stripTags false (Js.trim s) = Js.trim s.
Proof.
  intros H. unfold Js.trim.
  destruct (trimStart_suffix s) as [w Hw]. rewrite Hw in H.
  apply stripTags_suffix in H.
  destruct (trimEnd_prefix (Js.trimStart s)) as [w' Hw']. rewrite Hw' in H.
  by apply stripTags_prefix in H.
Qed.

Lemma startsBlack_trimStart s : startsBlack (Js.trimStart s) = true.
Proof.
  induction s as [|c s IH]; [done|]. simpl.
  destruct (Js.is_white c) eqn:E; [done|]. simpl. by rewrite E.
Qed.

Lemma trimStart_startsBlack s : startsBlack s = true -> Js.trimStart s = s.
Proof. destruct s as [|c s]; [done|]. simpl. by intros ->%negb_true_iff. Qed.

Lemma startsBlack_trimEnd s : startsBlack s = true -> startsBlack (Js.trimEnd s) = true.
Proof.
  destruct s as [|c s]; [done|]. simpl. intros H.
  destruct (Js.trimEnd s); [|done]. apply negb_true_iff in H. rewrite H. simpl.
  by rewrite H.
Qed.

Lemma trimEnd_idem s : Js.trimEnd (Js.trimEnd s) = Js.trimEnd s.
Proof.
  induction s as [|c s IH]; [done|]. simpl.
  destruct (Js.trimEnd s) as [|a r] eqn:E.
  - destruct (Js.is_white c) eqn:W; [done|]. simpl. by rewrite W.
  - change (Js.trimEnd (String c (String a r)))
      with (match Js.trimEnd (String a r) with
            | EmptyString => if Js.is_white c then EmptyString else String c EmptyString
            | r' => String c r'
            end).
    by rewrite IH.
Qed.

Lemma startsBlack_trim s : startsBlack (Js.trim s) = true.
Proof. apply startsBlack_trimEnd, startsBlack_trimStart. Qed.

Lemma trim_idem s : Js.trim (Js.trim s) = Js.trim s.
Proof.
  unfold Js.trim at 1. rewrite (trimStart_startsBlack _ (startsBlack_trim s)).
  apply trimEnd_idem.
Qed.

Lemma trimEnd_last s pre c :
  Js.trimEnd s = pre +:+ String c EmptyString -> Js.is_white c = false.
Proof.
  revert pre. induction s as [|a s IH]; intros pre; simpl.
  - by destruct pre.
  - destruct (Js.trimEnd s) as [|b r] eqn:E.
    + destruct (Js.is_white a) eqn:W; [by destruct pre|].
      destruct pre as [|p pre]; simpl; [by intros [= <-]|].
      intros [= _ H]. by destruct pre.
    + destruct pre as [|p pre]; simpl; [done|]. intros [= _ H]. by apply (IH pre).
Qed.

Lemma stripTags_no_lt s : Js.hasChar "<" s = false -> Js.stripTags false s = s.
Proof.
  induction s as [|c s IH]; [done|]. simpl.
  intros [-> H]%orb_false_iff. simpl. by rewrite IH.
Qed.

Lemma tagCloses_no_gt s : Js.hasChar ">" s = false -> Js.tagCloses s = false.
Proof.
  induction s as [|c s IH]; [done|]. simpl.
  intros [-> H]%orb_false_iff. destruct (Ascii.eqb c "013"); [done|by apply IH].
Qed.

Lemma stripTags_no_gt s : Js.hasChar ">" s = false -> Js.stripTags false s = s.
Proof.
  induction s as [|c s IH]; [done|]. simpl.
  intros [_ H]%orb_false_iff. rewrite (tagCloses_no_gt _ H), andb_false_r.
  by rewrite IH.
Qed.

(** The scan copies a text without ["<"] and goes on behind it. *)
Lemma stripTags_app_no_lt a s :
  Js.hasChar "<" a = false ->
  Js.stripTags false (a +:+ s) = a +:+ Js.stripTags false s.
Proof.
  induction a as [|c a IH]; [done|]. rewrite !append_cons. simpl.
  intros [-> H]%orb_false_iff. simpl. by rewrite IH.
Qed.



Lemma tagCloses_carriage_return t rest :
  Js.hasChar ">" t = false -> Js.tagCloses (t +:+ String "013" rest) = false.
Proof.
  induction t as [|c t IH]; [done|]. rewrite append_cons. simpl.
  intros [-> H]%orb_false_iff. destruct (Ascii.eqb c "013"); [done|by apply IH].
Qed.

Lemma stripTags_carriage_return t rest :
  Js.hasChar ">" t = false ->
  Js.stripTags false (t +:+ String "013" rest)
  = t +:+ String "013" (Js.stripTags false rest).
Proof.
  induction t as [|c t IH]; [done|]. rewrite !append_cons. simpl.
  intros [_ H]%orb_false_iff.
  rewrite (tagCloses_carriage_return _ _ H), andb_false_r. by rewrite IH.
Qed.

End Tags.

(** ** Further properties: the truncated text *)

Section Prefix.

Implicit Types (s clean rest str : string) (n m length : nat).

Lemma substring0_substring0 m n s :
  String.substring 0 m (String.substring 0 n s) = String.substring 0 (Nat.min m n) s.
Proof.
  revert m n. induction s as [|c s IH]; intros [|m] [|n]; simpl; try done.
  by rewrite IH.
Qed.

Lemma substring0_prefix n s : exists rest, s = String.substring 0 n s +:+ rest.
Proof.
  revert n. induction s as [|c s IH]; intros [|n]; simpl.
  - by exists EmptyString.
  - by exists EmptyString.
  - by exists (String c s).
  - destruct (IH n) as [rest Hrest]. exists rest. rewrite append_cons. by rewrite <- Hrest.
Qed.

Lemma substring0_all n s : (String.length s <= n)%nat -> String.substring 0 n s = s.
Proof.
  revert n. induction s as [|c s IH]; intros [|n] Hn; simpl in *; try done; try lia.
  rewrite IH; [done|lia].
Qed.

Lemma startsBlack_substring0 n s :
  startsBlack s = true -> startsBlack (String.substring 0 n s) = true.
Proof. by destruct s, n. Qed.

(** What the last line of [trimTillLastSentence] returns is a start of
    the cleaned text. *)
Lemma cut_prefix clean (w k : Z) :
  startsBlack clean = true ->
  k <= Js.len (Js.substr0 (clean +:+ " ") w) - 1 ->
  exists rest, clean = Js.trim (Js.substr0 (Js.substr0 (clean +:+ " ") w) k) +:+ rest.
Proof.
  intros Hblack Hk. unfold Js.substr0 in *. rewrite substring0_substring0.
  set (m := Nat.min _ _).
  assert (Hm : (m <= String.length clean)%nat).
  { unfold Js.len in Hk. rewrite length_substring0, length_append in Hk.
    simpl in Hk. unfold m. lia. }
  rewrite substring0_append by done. unfold Js.trim.
  rewrite trimStart_startsBlack by (by apply startsBlack_substring0).
  destruct (trimEnd_prefix (String.substring 0 m clean)) as [white Hw].
  destruct (substring0_prefix m clean) as [rest Hrest].
  exists (white +:+ rest). rewrite <- append_assoc', <- Hw. done.
Qed.

Lemma trimTillLastSentence_start str length :
  exists rest, getTextFromHtml str = trimTillLastSentence str length +:+ rest.
Proof.
  destruct (Nat.eq_dec length 0%nat) as [->|Hlen].
  { exists EmptyString. by rewrite append_empty_r. }
  destruct (string_dec (getTextFromHtml str) EmptyString) as [E|E].
  { exists EmptyString. unfold trimTillLastSentence. rewrite E.
    by rewrite orb_true_r. }
  rewrite (trimTillLastSentence_unfold str length) by (done || lia).
  assert (Hblack : startsBlack (getTextFromHtml str) = true)
    by apply startsBlack_trim.
  set (clean := getTextFromHtml str) in *.
  set (window := Js.substr0 _ (Z.of_nat length + 1)).
  assert (Hcut : forall separator,
    exists rest, clean = Js.trim (Js.substr0 window
       (Z.min (Js.len window - 1) (Js.lastIndexOf window separator))) +:+ rest).
  { intros separator. apply cut_prefix; [done|]. fold window. lia. }
  destruct (Z.eqb_spec (Js.lastIndexOf window ".") (-1)) as [Hdot|_]; [|apply Hcut].
  destruct (Z.eqb_spec (Js.lastIndexOf window " ") (-1)) as [Hsp|_]; [|apply Hcut].
  assert (Hno : Js.hasChar " " window = false).
  { destruct (Js.hasChar " " window) eqn:Hhas; [|done].
    apply lastIndexOf_present in Hhas. lia. }
  unfold window, Js.substr0 in Hno. apply hasChar_window in Hno.
  unfold Js.substr0. rewrite Nat2Z.id. rewrite substring0_append by lia.
  apply substring0_prefix.
Qed.

(** A cleaned text of at most [length] characters lies in the window
    with the space that line 323 adds. *)
Lemma window_fits clean length :
  (String.length clean <= length)%nat ->
  Js.substr0 (clean +:+ " ") (Z.of_nat length + 1) = clean +:+ " ".
Proof.
  intros Hfit. unfold Js.substr0. apply substring0_all.
  rewrite length_append. simpl. lia.
Qed.

Lemma length_trimTillLastSentence str length :
  (0 < length)%nat -> (String.length (trimTillLastSentence str length) <= length)%nat.
Proof.
  intros Hlen. destruct (string_dec (getTextFromHtml str) EmptyString) as [E|E].
  - unfold trimTillLastSentence. rewrite E. rewrite orb_true_r. simpl. lia.
  - rewrite (trimTillLastSentence_unfold str length Hlen E).
    set (window := Js.substr0 _ (Z.of_nat length + 1)).
    assert (Hw : Js.len window <= Z.of_nat length + 1).
    { unfold window. rewrite len_substr0. lia. }
    assert (Hcut : forall separator,
      (String.length (Js.trim (Js.substr0 window
         (Z.min (Js.len window - 1) (Js.lastIndexOf window separator)))) <= length)%nat).
    { intros separator. etrans; [apply length_trim|].
      unfold Js.substr0. rewrite length_substring0. unfold Js.len in *. lia. }
    destruct (_ =? -1); [destruct (_ =? -1)|]; try apply Hcut.
    unfold Js.substr0. rewrite length_substring0. lia.
Qed.

End Prefix.

(** ** Further properties: the descriptors of a name *)

Section Contents.

Implicit Types (l : list obj) (id c : string).

Lemma contents_app K id l1 l2 :
  contents K id (l1 ++ l2) = contents K id l1 ++ contents K id l2.
Proof. apply omap_app. Qed.

Lemma contents_nil K id : contents K id [] = [].
Proof. done. Qed.

Lemma contents_if K id (b : bool) l :
  contents K id (if b then l else []) = if b then contents K id l else [].
Proof. by destruct b. Qed.

Lemma contents_name_eq id c l :
  contents "name" id (descriptor "name" id c :: l) = c :: contents "name" id l.
Proof. unfold contents, descriptor, fieldIs. cbn. by rewrite String.eqb_refl. Qed.

Lemma contents_name_ne id id' c l :
  String.eqb id' id = false ->
  contents "name" id (descriptor "name" id' c :: l) = contents "name" id l.
Proof. intros H. unfold contents, descriptor, fieldIs. cbn. by rewrite H. Qed.

Lemma contents_name_property id id' c l :
  contents "name" id (descriptor "property" id' c :: l) = contents "name" id l.
Proof. done. Qed.

Lemma contents_name_itemProp id id' c l :
  contents "name" id (descriptor "itemProp" id' c :: l) = contents "name" id l.
Proof. done. Qed.

(** The descriptors of [type_details] are named [twitter:dataN] and
    [twitter:labelN]. *)
Lemma contents_name_numberedTriples id type first leaves :
  (forall n, String.eqb ("twitter:data" +:+ n) id = false) ->
  (forall n, String.eqb ("twitter:label" +:+ n) id = false) ->
  contents "name" id (numberedTriples type first leaves) = [].
Proof.
  intros Hdata Hlabel. revert first. induction leaves as [|leaf leaves IH]; intros first.
  - done.
  - rewrite numberedTriples_cons, contents_app, IH, app_nil_r. unfold detailTriple.
    rewrite contents_name_property, contents_name_ne by apply Hdata.
    by rewrite contents_name_ne by apply Hlabel.
Qed.

Lemma contents_keywordsBlock_other id seoData :
  String.eqb "keywords" id = false -> contents "name" id (keywordsBlock seoData) = [].
Proof.
  intros H. unfold keywordsBlock.
  destruct (Seo.keywords seoData) as [[s|l]|]; [| |done];
    rewrite contents_if, contents_name_ne by done; by destruct (negb _).
Qed.

Lemma if_same {A} (b : bool) (x : A) : (if b then x else x) = x.
Proof. by destruct b. Qed.

Lemma contents_none id l :
  Forall (fun o => fieldIs "name" id o = false) l -> contents "name" id l = [].
Proof.
  induction 1 as [|o l Ho _ IH]; [done|]. unfold contents in *. cbn [omap list_omap].
  by rewrite Ho.
Qed.

Lemma contents_none_generated id l :
  Forall isGenerated l -> contents "name" id l = [] ->
  Forall (fun o => fieldIs "name" id o = false) l.
Proof.
  induction 1 as [|o l (K & id' & c & HK & ->) _ IH]; [constructor|].
  apply isMetaKey_cases in HK as [-> | [-> | ->]].
  - destruct (String.eqb_spec id' id) as [->|Hne].
    + by rewrite contents_name_eq.
    + apply String.eqb_neq in Hne. rewrite contents_name_ne by done.
      intros Hl. constructor; [|by apply IH]. unfold fieldIs. cbn. done.
  - rewrite contents_name_itemProp. intros Hl. constructor; [done|by apply IH].
  - rewrite contents_name_property. intros Hl. constructor; [done|by apply IH].
Qed.

(** A name that one generated descriptor has: where the descriptor is. *)
Lemma contents_one_generated id c l :
  Forall isGenerated l -> contents "name" id l = [c] ->
  exists before after,
    l = before ++ descriptor "name" id c :: after
    /\ Forall (fun o => fieldIs "name" id o = false) before
    /\ Forall (fun o => fieldIs "name" id o = false) after.
Proof.
  induction 1 as [|o l Ho Hl IH]; [done|].
  pose proof Ho as (K & id' & c' & HK & ->).
  assert (Hskip : contents "name" id l = [c] ->
                  fieldIs "name" id (descriptor K id' c') = false ->
                  exists before after,
                    descriptor K id' c' :: l = before ++ descriptor "name" id c :: after
                    /\ Forall (fun o => fieldIs "name" id o = false) before
                    /\ Forall (fun o => fieldIs "name" id o = false) after).
  { intros (before & after & -> & Hb & Ha)%IH Hf.
    exists (descriptor K id' c' :: before), after. split; [done|]. split; [|done].
    by constructor. }
  apply isMetaKey_cases in HK as [-> | [-> | ->]].
  - destruct (String.eqb_spec id' id) as [->|Hne].
    + rewrite contents_name_eq. intros [= -> Hnil].
      exists [], l. split; [done|]. split; [constructor|].
      by apply contents_none_generated.
    + apply String.eqb_neq in Hne. rewrite contents_name_ne by done.
      intros Hc. apply Hskip; [done|]. unfold fieldIs. cbn. done.
  - rewrite contents_name_itemProp. intros Hc. by apply Hskip.
  - rewrite contents_name_property. intros Hc. by apply Hskip.
Qed.

(** Reading locations that hold objects without [id] under [name]. *)
Lemma contents_omap_none (h : heap) id (ls : list loc) :
  (forall (x : loc) o, x ∈ ls -> h !! x = Some o -> fieldIs "name" id o = false) ->
  contents "name" id (omap (fun x : loc => h !! x) ls) = [].
Proof.
  induction ls as [|x ls IH]; intros Hall; [done|]. cbn [omap list_omap].
  destruct (h !! x) as [o|] eqn:E.
  - change (o :: omap (fun x : loc => h !! x) ls)
      with ([o] ++ omap (fun x : loc => h !! x) ls).
    rewrite contents_app, IH; [|intros x' o' Hx'; apply Hall; by right].
    rewrite app_nil_r. apply contents_none. constructor; [|constructor].
    apply (Hall x); [by left|done].
  - apply IH. intros x' o' Hx'. apply Hall. by right.
Qed.

End Contents.

(** Rewrites [contents "name" id] of the generated list into the
    contents of its blocks: the descriptors with another name and the
    ones without name drop out.  For [keywords] the keywords block is
    left to the caller. *)
Ltac name_contents id :=
  rewrite generatedSchema_blocks;
  unfold beforeDetails, titleBlock, twitterBlock, facebookBlock,
    descriptionBlock, siteNameBlock, imageBlock, imageTriple, cardBlock, detailsBlock,
    urlBlock;
  cbv zeta;
  rewrite !contents_app;
  rewrite (contents_name_numberedTriples id _ _ _ (fun _ => eq_refl) (fun _ => eq_refl));
  rewrite ?contents_if;
  rewrite ?contents_keywordsBlock_other by reflexivity;
  repeat (rewrite contents_name_property || rewrite contents_name_itemProp
          || rewrite contents_name_eq || rewrite contents_name_ne by reflexivity);
  rewrite ?contents_nil, ?if_same, ?app_nil_r; cbn [app].

(** The merged value of the keys that the descriptors above are made of. *)

Section Merged.

Variables (configSeo data : Seo.t).

Let seoData := defaults data (seoSchema configSeo).

Lemma merged_description :
  Seo.description seoData
  = Some (layered (Seo.description data) (Seo.description configSeo) "").
Proof.
  unfold seoData, seoSchema, layered. cbn [defaults schemaLiteral Seo.description].
  by destruct (Seo.description data), (Seo.description configSeo).
Qed.

Lemma merged_keywords :
  Seo.keywords seoData
  = Some (layered (Seo.keywords data) (Seo.keywords configSeo) (KArray [])).
Proof.
  unfold seoData, seoSchema, layered. cbn [defaults schemaLiteral Seo.keywords].
  by destruct (Seo.keywords data), (Seo.keywords configSeo).
Qed.

Lemma merged_image :
  Seo.image seoData = Some (layered (Seo.image data) (Seo.image configSeo) "").
Proof.
  unfold seoData, seoSchema, layered. cbn [defaults schemaLiteral Seo.image].
  by destruct (Seo.image data), (Seo.image configSeo).
Qed.

Lemma merged_twitter :
  Seo.twitter seoData
  = Some (layered (Seo.twitter data) (Seo.twitter configSeo)
            {| Twitter.site := Some EmptyString; Twitter.creator := Some EmptyString |}).
Proof.
  unfold seoData, seoSchema, layered. cbn [defaults schemaLiteral Seo.twitter].
  by destruct (Seo.twitter data), (Seo.twitter configSeo).
Qed.

End Merged.

(** ** Further properties: the working list under [addUpdateMeta] *)

Section Appending.

Implicit Types (h : heap) (source customMetas : list loc) (l meta target : loc).

(** The working list grows by custom entries only, in their order. *)
Lemma addUpdateMeta_added customMetas h source h' source' :
  addUpdateMeta (h, source) customMetas = Some (h', source') ->
  exists added, source' = source ++ added /\ sublist added customMetas.
Proof.
  revert h source. induction customMetas as [|meta customMetas IH]; intros h source.
  - intros [= <- <-]. exists []. by rewrite app_nil_r.
  - cbn [addUpdateMeta]. destruct (addUpdateOne (h, source) meta) as [[h1 source1]|] eqn:E;
      [|done].
    cbn [mbind option_bind]. intros (added & -> & Hsub)%IH.
    apply addUpdateOne_result in E. inversion E; subst.
    + exists (meta :: added). rewrite <- app_assoc. split; [done|].
      by apply sublist_skip.
    + exists added. split; [done|]. by apply sublist_cons.
    + exists added. split; [done|]. by apply sublist_cons.
Qed.

Lemma addUpdateMeta_app st customMetas1 customMetas2 :
  addUpdateMeta st (customMetas1 ++ customMetas2)
  = st' ← addUpdateMeta st customMetas1; addUpdateMeta st' customMetas2.
Proof.
  revert st. induction customMetas1 as [|meta customMetas1 IH]; intros st; [done|].
  cbn [app addUpdateMeta]. destruct (addUpdateOne st meta) as [st1|]; [|done].
  cbn [mbind option_bind]. apply IH.
Qed.

Lemma lookup_generated h (generated : list obj) i :
  (h ++ generated) !! (length h + i)%nat = generated !! i.
Proof. rewrite lookup_app_r by lia. f_equal. lia. Qed.

(** [_.find] on the generated part of the working list. *)
Lemma find_generated h K v before x after :
  Forall (fun o => fieldIs K v o = false) before -> fieldIs K v x = true ->
  let generated := before ++ x :: after in
  List.find (matchesProperty (h ++ generated) K v) (seq (length h) (length generated))
  = Some (length h + length before)%nat.
Proof.
  intros Hb Hx generated. unfold generated. rewrite length_app. cbn [length].
  rewrite seq_app. cbn [seq]. apply find_first.
  - apply Forall_forall. intros i [Hge Hlt]%elem_of_seq.
    replace i with (length h + (i - length h))%nat by lia.
    unfold matchesProperty. rewrite lookup_generated.
    rewrite lookup_app_l by lia.
    destruct (before !! (i - length h)%nat) as [o|] eqn:E; [|done].
    rewrite Forall_forall in Hb. apply Hb. by eapply list_elem_of_lookup_2.
  - unfold matchesProperty. rewrite lookup_generated.
    by rewrite list_lookup_middle.
Qed.

(** A descriptor is not structurally equal to an object with another
    value at the identifying key. *)
Lemma isEqual_descriptor_other K v c (o : obj) :
  fieldIs K v o = false -> isEqual (VObj (descriptor K v c)) (VObj o) = false.
Proof.
  intros Hf. unfold descriptor. cbn [isEqual forallb fst snd]. unfold fieldIs in Hf.
  destruct (field K o) as [[s|?]|]; cbn [isEqual]; rewrite ?andb_false_r; try done.
  by rewrite String.eqb_sym, Hf, andb_false_r.
Qed.

End Appending.

(** ** Further properties: a list without duplicates *)

Section Distinct.

Lemma uniq_fold_distinct {A} (comparator : A -> A -> bool) array result :
  (forall l1 x l2, array = l1 ++ x :: l2 ->
     Forall (fun y => comparator x y = false) (result ++ l1)) ->
  fold_left (fun result x => if existsb (fun seen => comparator x seen) result
                             then result else result ++ [x]) array result
  = result ++ array.
Proof.
  revert result. induction array as [|x array IH]; intros result Hall.
  - by rewrite app_nil_r.
  - cbn [fold_left]. pose proof (Hall [] x array eq_refl) as Hx. rewrite app_nil_r in Hx.
    apply (existsb_false_Forall comparator (fun seen => comparator x seen)) in Hx.
    rewrite Hx.
    rewrite IH; [by rewrite <- app_assoc|].
    intros l1 y l2 ->. rewrite <- app_assoc. by apply (Hall (x :: l1) y l2).
Qed.

(** [_.uniqWith] returns an array in which no element is related to an
    earlier one as it is. *)
Lemma uniqWith_distinct {A} (comparator : A -> A -> bool) array :
  (forall l1 x l2, array = l1 ++ x :: l2 -> Forall (fun y => comparator x y = false) l1) ->
  uniqWith comparator array = array.
Proof. intros Hall. unfold uniqWith. by rewrite uniq_fold_distinct. Qed.

Lemma isEqual_generated_distinct (o o' : obj) :
  isGenerated o -> isGenerated o' -> idPair o <> idPair o' ->
  isEqual (VObj o) (VObj o') = false.
Proof.
  intros (K & id & c & HK & ->) (K' & id' & c' & HK' & ->) Hne.
  apply isMetaKey_cases in HK as [-> | [-> | ->]];
    apply isMetaKey_cases in HK' as [-> | [-> | ->]]; try done;
    cbn; destruct (String.eqb_spec id id') as [->|_]; done.
Qed.

(** Reading the generated part of the heap gives the generated list. *)
Lemma omap_lookup_seq (h generated : list obj) :
  omap (fun x : loc => (h ++ generated) !! x) (seq (length h) (length generated))
  = generated.
Proof.
  revert h. induction generated as [|o generated IH]; intros h; [done|].
  cbn [length seq omap list_omap]. rewrite list_lookup_middle by done.
  f_equal. specialize (IH (h ++ [o])). rewrite <- app_assoc, length_app in IH.
  cbn [length app] in IH. by replace (length h + 1)%nat with (S (length h)) in IH by lia.
Qed.

End Distinct.

(** ** Further properties *)

(** X1.  Cleaning a cleaned text changes nothing: what [getTextFromHtml]
    returns has no tag left and no white space around it. *)
Theorem getTextFromHtml_idempotent (str : string) :
  getTextFromHtml (getTextFromHtml str) = getTextFromHtml str.
Proof.
  unfold getTextFromHtml.
  rewrite (stripTags_trim _ (stripTags_idem false str)). apply trim_idem.
Qed.

(** X2.  A text without ["<"], or without [">"], is only trimmed: a lone
    angle bracket is not a tag. *)
Theorem getTextFromHtml_without_tags (str : string) :
  Js.hasChar "<" str = false \/ Js.hasChar ">" str = false ->
  getTextFromHtml str = Js.trim str.
Proof.
  unfold getTextFromHtml.
  by intros [H|H]; rewrite ?(stripTags_no_lt _ H), ?(stripTags_no_gt _ H).
Qed.

Lemma getTextFromHtml_without_tags_witness :
  getTextFromHtml " 1 < 2 " = "1 < 2"%string.
Proof. exact (getTextFromHtml_without_tags " 1 < 2 " (or_intror eq_refl)). Defined.



(** X4.  A ["<"] that is followed by a carriage return before any [">"]
    starts no tag: the regular expression's [.|\n] does not match the
    carriage return.  The text up to the carriage return is kept and the
    replacement goes on behind it. *)
Theorem getTextFromHtml_carriage_return (a t rest : string) :
  Js.hasChar "<" a = false -> Js.hasChar ">" t = false ->
  getTextFromHtml (a +:+ "<" +:+ t +:+ String "013" rest)
  = Js.trim (a +:+ "<" +:+ t +:+ String "013" (Js.stripTags false rest)).
Proof.
  intros Ha Ht. unfold getTextFromHtml. rewrite (stripTags_app_no_lt _ _ Ha).
  do 2 f_equal.
  change ("<" +:+ t +:+ String "013" rest) with (String "<" (t +:+ String "013" rest)).
  cbn [Js.stripTags]. rewrite (tagCloses_carriage_return _ _ Ht), andb_false_r.
  by rewrite (stripTags_carriage_return _ _ Ht).
Qed.

Lemma getTextFromHtml_carriage_return_witness :
  getTextFromHtml ("Hello " +:+ "<" +:+ "br" +:+ String "013" " /><i>world</i>")
  = String.append "Hello <br" (String "013" " />world").
Proof.
  exact (getTextFromHtml_carriage_return "Hello " "br" " /><i>world</i>" eq_refl eq_refl).
Defined.

(** X5.  The cleaned text neither starts nor ends with a white-space
    character, also when the white space stood behind a tag: the text is
    trimmed after the tags are removed. *)
Theorem getTextFromHtml_no_outer_white_space (str : string) :
  (forall c rest, getTextFromHtml str = String c rest -> Js.is_white c = false)
  /\ (forall pre c,
        getTextFromHtml str = pre +:+ String c EmptyString -> Js.is_white c = false).
Proof.
  split.
  - intros c rest H. pose proof (startsBlack_trim (Js.stripTags false str)) as Hb.
    unfold getTextFromHtml in H. rewrite H in Hb. by apply negb_true_iff in Hb.
  - intros pre c H. by apply (trimEnd_last _ _ _ H).
Qed.

Lemma getTextFromHtml_no_outer_white_space_witness :
  Js.is_white "h" = false /\ Js.is_white "o" = false.
Proof.
  split.
  - exact (proj1 (getTextFromHtml_no_outer_white_space " <p> hello </p> ") _ _ eq_refl).
  - exact (proj2 (getTextFromHtml_no_outer_white_space " <p> hello </p> ") "hell" _ eq_refl).
Defined.

(** X6.  Whatever the [length], [trimTillLastSentence] returns a start of
    the cleaned text: nothing is reordered, replaced or added, the space
    of line 323 included. *)
Theorem trimTillLastSentence_prefix (str : string) (length : nat) :
  exists rest, getTextFromHtml str = trimTillLastSentence str length +:+ rest.
Proof. apply trimTillLastSentence_start. Qed.

(** X7.  A cleaned text of at most [length] characters is returned whole
    when it has no ["."]; when it has one, it is still cut before its last
    ["."], and what follows is lost. *)
Theorem trimTillLastSentence_fits (str : string) (length : nat) :
  let clean := getTextFromHtml str in
  let result := trimTillLastSentence str length in
  (String.length clean <= length)%nat ->
  (Js.hasChar "." clean = false -> result = clean)
  /\ (forall pre post,
        clean = pre +:+ "." +:+ post -> Js.hasChar "." post = false ->
        result = Js.trim pre).
Proof.
  intros clean result Hfit.
  destruct (string_dec clean EmptyString) as [E|E].
  { split.
    - intros _. unfold result, trimTillLastSentence. fold clean. rewrite E.
      by rewrite orb_true_r.
    - intros pre post Hsplit. rewrite E in Hsplit. by destruct pre. }
  assert (Hlen : (0 < length)%nat).
  { destruct clean; [done|]. simpl in Hfit. lia. }
  pose proof (trimTillLastSentence_unfold str length Hlen E) as Hres.
  cbv zeta in Hres. fold clean result in Hres.
  rewrite (window_fits clean length Hfit) in Hres. split.
  - intros Hdot.
    assert (Hdot' : Js.hasChar "." (clean +:+ " ") = false)
      by (by rewrite hasChar_append, Hdot).
    rewrite (lastIndexOf_absent _ _ Hdot') in Hres. cbn [Z.eqb Pos.eqb] in Hres.
    pose proof (cut_at_last clean EmptyString " " eq_refl) as Hcut. cbv zeta in Hcut.
    rewrite Hcut in Hres.
    rewrite (lastIndexOf_last clean EmptyString " " eq_refl) in Hres.
    destruct (Z.eqb_spec (Js.len clean) (-1)) as [Hneg|_]; [unfold Js.len in Hneg; lia|].
    rewrite Hres. apply trim_idem.
  - intros pre post Hsplit Hpost.
    assert (Hpost' : Js.hasChar "." (post +:+ " ") = false)
      by (by rewrite hasChar_append, Hpost).
    assert (Hw : clean +:+ " " = pre +:+ String "." (post +:+ " ")).
    { rewrite Hsplit. by rewrite !append_assoc'. }
    rewrite Hw in Hres.
    pose proof (cut_at_last pre (post +:+ " ") "." Hpost') as Hcut. cbv zeta in Hcut.
    rewrite Hcut in Hres.
    rewrite (lastIndexOf_last pre (post +:+ " ") "." Hpost') in Hres.
    destruct (Z.eqb_spec (Js.len pre) (-1)) as [Hneg|_]; [unfold Js.len in Hneg; lia|].
    done.
Qed.

Lemma trimTillLastSentence_fits_witness :
  trimTillLastSentence "  <p>Tirth Bodawala</p> " 155 = "Tirth Bodawala"%string
  /\ trimTillLastSentence "Hello world. Bye" 155 = "Hello world"%string.
Proof.
  split.
  - exact (proj1 (trimTillLastSentence_fits "  <p>Tirth Bodawala</p> " 155 ltac:(simpl; lia))
             eq_refl).
  - exact (proj2 (trimTillLastSentence_fits "Hello world. Bye" 155 ltac:(simpl; lia))
             "Hello world"%string " Bye"%string eq_refl eq_refl).
Defined.

(** X8.  The truncated text has no tag: cutting the cleaned text never
    leaves a span from ["<"] to [">"] that the replacement of
    [getTextFromHtml] would remove. *)
Theorem trimTillLastSentence_no_tags (str : string) (length : nat) :
  Js.stripTags false (trimTillLastSentence str length) = trimTillLastSentence str length.
Proof.
  destruct (trimTillLastSentence_start str length) as [rest Hrest].
  apply (stripTags_prefix _ rest). rewrite <- Hrest.
  unfold getTextFromHtml. apply stripTags_trim, stripTags_idem.
Qed.

(** X9.  After [_.defaults(data, seoSchema)] every key of the schema
    literal is defined, whatever the page and the configuration leave
    out, with the value of the page, else of the configuration, else of
    the literal; [url] and [meta] have no literal value. *)
Theorem merged_data_layers (configSeo data : Seo.t) :
  let seoData := defaults data (seoSchema configSeo) in
  Seo.title seoData = Some (layered (Seo.title data) (Seo.title configSeo) "")
  /\ Seo.description seoData
     = Some (layered (Seo.description data) (Seo.description configSeo) "")
  /\ Seo.keywords seoData
     = Some (layered (Seo.keywords data) (Seo.keywords configSeo) (KArray []))
  /\ Seo.image seoData = Some (layered (Seo.image data) (Seo.image configSeo) "")
  /\ Seo.site_name seoData
     = Some (layered (Seo.site_name data) (Seo.site_name configSeo) "")
  /\ Seo.twitter seoData
     = Some (layered (Seo.twitter data) (Seo.twitter configSeo)
               {| Twitter.site := Some EmptyString; Twitter.creator := Some EmptyString |})
  /\ Seo.facebook seoData
     = Some (layered (Seo.facebook data) (Seo.facebook configSeo)
               {| Facebook.admins := Some [] |})
  /\ Seo.type seoData = Some (layered (Seo.type data) (Seo.type configSeo) "article")
  /\ Seo.type_details seoData
     = Some (layered (Seo.type_details data) (Seo.type_details configSeo)
               [("section", Leaf ""); ("published_time", Leaf "");
                ("modified_time", Leaf "")]%string)
  /\ Seo.url seoData = orDefault (Seo.url data) (Seo.url configSeo)
  /\ Seo.meta seoData = orDefault (Seo.meta data) (Seo.meta configSeo).
Proof.
  cbv zeta. unfold seoSchema, layered.
  cbn [defaults schemaLiteral Seo.title Seo.description Seo.keywords Seo.image
         Seo.site_name Seo.twitter Seo.facebook Seo.type Seo.type_details Seo.url Seo.meta].
  repeat split;
    match goal with
    | |- orDefault ?a (orDefault ?b _) = _ => by destruct a, b
    end.
Qed.

(** X10.  [_.defaults] with the same source a second time assigns
    nothing: a data object that a call has completed is merged to itself
    by the next call with the same schema. *)
Theorem defaults_idempotent (data source : Seo.t) :
  defaults (defaults data source) source = defaults data source.
Proof.
  unfold defaults.
  cbn [Seo.title Seo.description Seo.keywords Seo.image
         Seo.site_name Seo.twitter Seo.facebook Seo.type Seo.type_details Seo.url Seo.meta].
  f_equal;
    match goal with
    | |- orDefault (orDefault ?a ?b) _ = _ => by destruct a, b
    end.
Qed.

(** X11.  The pushes of lines 55-229 give the descriptors in this order:
    the titles, the keywords, [twitter:site] and [twitter:creator],
    [fb:admins], the descriptions, [og:site_name], the image, the card
    and [og:type], the [type_details] triples, [og:url]. *)
Theorem generated_in_order (env : Env.t) (seoData : Seo.t) (options : Options.t) :
  generatedSchema env seoData options
  = titleBlock seoData ++ keywordsBlock seoData ++ twitterBlock seoData
    ++ facebookBlock seoData ++ descriptionBlock seoData ++ siteNameBlock seoData
    ++ imageBlock seoData options ++ cardBlock seoData ++ detailsBlock seoData
    ++ urlBlock env seoData options.
Proof.
  rewrite generatedSchema_blocks. unfold beforeDetails. by rewrite <- !app_assoc.
Qed.

(** X12.  The generated list has at most one descriptor named
    [keywords]: for a string that is not blank, the string as it is (not
    trimmed); for a non-empty array, its elements joined by commas; for
    a blank string or an empty array, none. *)
Theorem keywords_descriptor
    (configSeo : Seo.t) (env : Env.t) (data : Seo.t) (options : Options.t) :
  let seoData := defaults data (seoSchema configSeo) in
  contents "name" "keywords" (generatedSchema env seoData options)
  = match layered (Seo.keywords data) (Seo.keywords configSeo) (KArray []) with
    | KString s => if isEmpty (Js.trim s) then [] else [s]
    | KArray [] => []
    | KArray l => [Js.join "," l]
    end.
Proof.
  intros seoData.
  pose proof (merged_keywords configSeo data) as Hk. fold seoData in Hk.
  name_contents "keywords"%string. unfold keywordsBlock. rewrite Hk.
  destruct (layered _ _ _) as [s|l].
  - rewrite contents_if, contents_name_eq, len_eqb_0. unfold isEmpty.
    by destruct (String.eqb _ _).
  - rewrite contents_if, contents_name_eq. by destruct l.
Qed.

(** X13.  [twitter:site] and [twitter:creator] are generated for the
    non-empty values of one [twitter] object: the page's if the page has
    one, else the configuration's, else the literal's.  The objects are
    not merged: a page that gives [twitter] without [creator] gets no
    [twitter:creator], whatever the configuration says. *)
Theorem twitter_descriptors
    (configSeo : Seo.t) (env : Env.t) (data : Seo.t) (options : Options.t) :
  let seoData := defaults data (seoSchema configSeo) in
  let twitter :=
    layered (Seo.twitter data) (Seo.twitter configSeo)
      {| Twitter.site := Some EmptyString; Twitter.creator := Some EmptyString |} in
  contents "name" "twitter:site" (generatedSchema env seoData options)
  = ifNonEmpty (str (Twitter.site twitter))
  /\ contents "name" "twitter:creator" (generatedSchema env seoData options)
     = ifNonEmpty (str (Twitter.creator twitter)).
Proof.
  intros seoData twitter.
  pose proof (merged_twitter configSeo data) as Ht. fold seoData twitter in Ht. split.
  - name_contents "twitter:site"%string. rewrite Ht. cbn [mbind option_bind].
    rewrite len_eqb_0. unfold ifNonEmpty, isEmpty. by destruct (String.eqb _ _).
  - name_contents "twitter:creator"%string. rewrite Ht. cbn [mbind option_bind].
    rewrite len_eqb_0. unfold ifNonEmpty, isEmpty. by destruct (String.eqb _ _).
Qed.

(** X14.  The generated list has one [description] descriptor, of at
    most 155 characters, one [twitter:description] descriptor, of at most
    200 characters, both cut from the cleaned description, and next to
    them [og:description] with the description as it was given, tags
    included. *)
Theorem description_descriptors
    (configSeo : Seo.t) (env : Env.t) (data : Seo.t) (options : Options.t) :
  let seoData := defaults data (seoSchema configSeo) in
  let description := layered (Seo.description data) (Seo.description configSeo) "" in
  let generated := generatedSchema env seoData options in
  let desc155words := trimTillLastSentence description 155 in
  let desc200words := trimTillLastSentence description 200 in
  contents "name" "description" generated = [desc155words]
  /\ contents "name" "twitter:description" generated = [desc200words]
  /\ (exists before after,
        generated
        = before
          ++ [descriptor "name" "description" desc155words;
              descriptor "name" "twitter:description" desc200words;
              descriptor "property" "og:description" description]
          ++ after)
  /\ (String.length desc155words <= 155)%nat
  /\ (String.length desc200words <= 200)%nat.
Proof.
  intros seoData description generated desc155words desc200words.
  pose proof (merged_description configSeo data) as Hd.
  fold seoData description in Hd. unfold generated.
  split; [|split; [|split; [|split]]].
  - name_contents "description"%string. by rewrite Hd.
  - name_contents "twitter:description"%string. by rewrite Hd.
  - exists (titleBlock seoData ++ keywordsBlock seoData ++ twitterBlock seoData
            ++ facebookBlock seoData).
    exists (siteNameBlock seoData ++ imageBlock seoData options ++ cardBlock seoData
            ++ detailsBlock seoData ++ urlBlock env seoData options).
    rewrite generatedSchema_blocks. unfold beforeDetails, descriptionBlock.
    rewrite Hd. cbn [str getOr]. by rewrite <- !app_assoc.
  - apply length_trimTillLastSentence. lia.
  - apply length_trimTillLastSentence. lia.
Qed.

(** X15.  The generated list has one [twitter:card] descriptor; it says
    [summary_large_image] exactly when the merged image is non-empty,
    which is exactly when [twitter:image:src] is generated. *)
Theorem twitter_card
    (configSeo : Seo.t) (env : Env.t) (data : Seo.t) (options : Options.t) :
  let seoData := defaults data (seoSchema configSeo) in
  let image := layered (Seo.image data) (Seo.image configSeo) "" in
  let generated := generatedSchema env seoData options in
  contents "name" "twitter:card" generated
  = [if isEmpty image then "summary" else "summary_large_image"]%string
  /\ contents "name" "twitter:image:src" generated
     = if isEmpty image then []
       else [fullImageUrl image (Js.dropTrailingSlash (Options.baseUrl options))].
Proof.
  intros seoData image generated.
  pose proof (merged_image configSeo data) as Hi. fold seoData image in Hi. unfold generated. split.
  - name_contents "twitter:card"%string. rewrite Hi. cbn [str getOr].
    rewrite len_eqb_0. unfold isEmpty. by destruct (String.eqb _ _).
  - name_contents "twitter:image:src"%string. rewrite Hi. cbn [str getOr].
    rewrite len_eqb_0. unfold isEmpty. by destruct (String.eqb _ _).
Qed.

(** X16.  [addUpdateMeta] never removes or reorders a descriptor of
    [source]: afterwards [source] is what it was, followed by some of the
    custom entries in their order.  (With plain entries the call has a
    result.) *)
Theorem addUpdateMeta_only_appends (h : heap) (source customMetas : list loc) :
  (holdsAt (fun o => plainEntry o = true) h (source ++ customMetas) ->
   exists st', addUpdateMeta (h, source) customMetas = Some st')
  /\ forall h' source',
      addUpdateMeta (h, source) customMetas = Some (h', source') ->
      exists added, source' = source ++ added /\ sublist added customMetas.
Proof.
  split.
  - intros Hplain. apply (addUpdateMeta_total customMetas h source []).
    by rewrite app_nil_r.
  - intros h' source'. apply addUpdateMeta_added.
Qed.

Lemma addUpdateMeta_only_appends_witness :
  exists h',
    addUpdateMeta (robotsHeap, [0%nat]) [1%nat; 2%nat] = Some (h', [0%nat; 2%nat])
    /\ exists added, [0%nat; 2%nat] = [0%nat] ++ added /\ sublist added [1%nat; 2%nat].
Proof.
  eexists. split; [reflexivity|].
  exact (proj2 (addUpdateMeta_only_appends robotsHeap [0%nat] [1%nat; 2%nat]) _ _ eq_refl).
Defined.

(** X17.  The two calls of lines 233 and 236 are one pass over the
    configuration's custom entries followed by the page's.  A page
    without [meta] inherits the configuration's array through
    [_.defaults], so the configuration's entries are then applied a
    second time. *)
Theorem custom_meta_passes
    (configSeo : Seo.t) (env : Env.t) (h : heap) (data : Seo.t) (options : Options.t) :
  let seoData := defaults data (seoSchema configSeo) in
  let generated := generatedSchema env seoData options in
  let configMeta := getOr [] (Seo.meta configSeo) in
  let pageMeta := getOr configMeta (Seo.meta data) in
  workingList configSeo env h data options
  = addUpdateMeta (h ++ generated, seq (length h) (length generated))
      (configMeta ++ pageMeta).
Proof.
  cbv zeta. rewrite addUpdateMeta_app. unfold workingList, seoSchema.
  cbn [defaults schemaLiteral Seo.meta].
  by destruct (Seo.meta configSeo), (Seo.meta data).
Qed.

(** X18.  Two custom entries with the same value at the same identifying
    key, which no descriptor of [source] has: the first entry is
    appended, and the second is assigned onto the first, which is the
    caller's object; the second is not appended. *)
Theorem repeated_custom_entry
    (h : heap) (source : list loc) (first second : loc) (firstObj secondObj : obj)
    (metaKey srcValue : string) :
  h !! first = Some firstObj -> h !! second = Some secondObj -> first <> second ->
  getMetaKey firstObj = Some metaKey -> field metaKey firstObj = Some (VStr srcValue) ->
  getMetaKey secondObj = Some metaKey -> field metaKey secondObj = Some (VStr srcValue) ->
  Forall (fun l => matchesProperty h metaKey srcValue l = false) source ->
  supported secondObj = true ->
  addUpdateMeta (h, source) [first; second]
  = Some (<[first := assignFields firstObj secondObj]> h, source ++ [first]).
Proof.
  intros Hfirst Hsecond Hne Hk1 Hv1 Hk2 Hv2 Hnone Hsup.
  cbn [addUpdateMeta].
  rewrite (addUpdateOne_append h source first firstObj Hfirst)
    by (right; by exists metaKey, srcValue).
  cbn [mbind option_bind].
  rewrite (addUpdateOne_assign h (source ++ [first]) second secondObj metaKey srcValue
             first firstObj); try done.
  apply find_first; [done|]. unfold matchesProperty, fieldIs. rewrite Hfirst, Hv1.
  apply String.eqb_refl.
Qed.

Lemma repeated_custom_entry_witness :
  addUpdateMeta (robotsHeap, []) [0%nat; 1%nat]
  = Some ([[("name", VStr "robots"); ("content", VStr "none")];
           [("name", VStr "robots"); ("content", VStr "none")];
           [("custom", VStr "x")]]%string, [0%nat]).
Proof.
  exact (repeated_custom_entry robotsHeap [] 0%nat 1%nat _ _ "name" "robots"
           eq_refl eq_refl ltac:(discriminate) eq_refl eq_refl eq_refl eq_refl
           (Forall_nil_2 _) eq_refl).
Defined.

(** X19.  A page entry [{ name: id, content: c }] for a name that one
    generated descriptor has, with no custom entries in the
    configuration: the call has a result, the returned list has one
    descriptor of that name, its content is [c], and the entry itself is
    not in the list. *)
Theorem page_entry_overrides_generated
    (configSeo : Seo.t) (env : Env.t) (h : heap) (data : Seo.t) (options : Options.t)
    (meta : loc) (idValue content old : string) :
  let generated := generatedSchema env (defaults data (seoSchema configSeo)) options in
  getOr [] (Seo.meta configSeo) = [] ->
  Seo.meta data = Some [meta] ->
  h !! meta = Some [("name", VStr idValue); ("content", VStr content)]%string ->
  idValue <> EmptyString ->
  contents "name" idValue generated = [old] ->
  exists r,
    generateMeta configSeo env h data options = Some r
    /\ contents "name" idValue (descriptors r) = [content]
    /\ meta ∉ outMeta r.
Proof.
  intros generated Hconfig Hdata Hmeta Hid Hone.
  destruct (contents_one_generated idValue old generated) as (before & after & Hgen & Hb & Ha);
    [apply generatedSchema_generated|done|].
  set (target := (length h + length before)%nat).
  set (entry := [("name", VStr idValue); ("content", VStr content)]%string) in *.
  assert (Hlt : (meta < length h)%nat) by (by eapply lookup_lt_Some).
  assert (Hold : fieldIs "name" idValue (descriptor "name" idValue old) = true).
  { unfold fieldIs. cbn. apply String.eqb_refl. }
  assert (Hfind : List.find (matchesProperty (h ++ generated) "name" idValue)
                    (seq (length h) (length generated)) = Some target).
  { rewrite Hgen. by apply (find_generated h "name" idValue before _ after). }
  assert (Hkey : getMetaKey entry = Some "name"%string).
  { unfold getMetaKey, entry. cbn. apply String.eqb_neq in Hid. by rewrite Hid. }
  assert (Hwork : workingList configSeo env h data options
                  = Some (<[target := descriptor "name" idValue content]> (h ++ generated),
                          seq (length h) (length generated))).
  { unfold workingList. fold generated.
    replace (getOr [] (Seo.meta (seoSchema configSeo))) with (@nil loc)
      by (unfold seoSchema; cbn [defaults Seo.meta schemaLiteral];
          by destruct (Seo.meta configSeo)).
    cbn [addUpdateMeta mbind option_bind defaults Seo.meta]. rewrite Hdata.
    cbn [orDefault getOr]. rewrite addUpdateMeta_singleton.
    rewrite (addUpdateOne_assign (h ++ generated) _ meta entry "name" idValue target
               (descriptor "name" idValue old)); try done.
    - by apply lookup_app_l_Some.
    - unfold target. rewrite lookup_generated, Hgen. by apply list_lookup_middle.
    - unfold target. lia. }
  eexists. split; [unfold generateMeta; rewrite Hwork; reflexivity|].
  cbn [outMeta outHeap].
  set (d := descriptor "name" idValue content).
  assert (Hheap : <[target := d]> (h ++ generated) = h ++ before ++ d :: after).
  { unfold target. rewrite insert_app_r, Hgen. f_equal.
    replace (length before) with (length before + 0)%nat by lia.
    by rewrite insert_app_r. }
  rewrite Hheap. set (h1 := h ++ before ++ d :: after).
  assert (Hseq : seq (length h) (length generated)
                 = seq (length h) (length before) ++ target :: seq (S target) (length after)).
  { rewrite Hgen, length_app, seq_app. done. }
  assert (H1 : forall l o, l ∈ seq (length h) (length before) -> h1 !! l = Some o ->
                 fieldIs "name" idValue o = false).
  { intros l o [Hge Hl]%elem_of_seq. unfold h1.
    replace l with (length h + (l - length h))%nat by lia.
    rewrite lookup_generated, lookup_app_l by lia. intros Ho.
    rewrite Forall_forall in Hb. apply Hb. by eapply list_elem_of_lookup_2. }
  assert (H2 : forall l o, l ∈ seq (S target) (length after) -> h1 !! l = Some o ->
                 fieldIs "name" idValue o = false).
  { intros l o [Hge Hl]%elem_of_seq. unfold h1, target in *.
    replace l with (length h + (length before + S (l - S (length h + length before))))%nat
      by lia.
    rewrite lookup_generated, lookup_app_r by lia.
    replace (length before + S (l - S (length h + length before)) - length before)%nat
      with (S (l - S (length h + length before))) by lia.
    cbn [lookup list_lookup]. intros Ho.
    rewrite Forall_forall in Ha. apply Ha. by eapply list_elem_of_lookup_2. }
  assert (Ht : h1 !! target = Some d).
  { unfold h1, target. rewrite lookup_generated. by apply list_lookup_middle. }
  destruct (uniqWith_spec (isEqualAt h1) (seq (length h) (length generated)))
    as (Hsub & _ & Hfirst & _).
  set (out := uniqWith (isEqualAt h1) (seq (length h) (length generated))) in *.
  assert (Hin : target ∈ out).
  { apply (Hfirst _ _ _ Hseq). apply Forall_forall. intros y Hy.
    unfold isEqualAt. rewrite Ht.
    pose proof Hy as [Hge Hylt]%elem_of_seq.
    replace (Nat.eqb target y) with false
      by (symmetry; apply Nat.eqb_neq; unfold target; lia).
    cbn [orb]. destruct (h1 !! y) as [oy|] eqn:Ey; [|done].
    apply isEqual_descriptor_other. by apply (H1 y). }
  split.
  - rewrite Hseq in Hsub. apply sublist_app_r in Hsub as (o1 & o2 & Hout & Ho1 & Ho2).
    apply sublist_cons_r in Ho2 as [Ho2|(o2' & -> & Ho2)].
    + rewrite Hout in Hin. apply elem_of_app in Hin as [Hin|Hin].
      * apply (elem_of_sublist _ _ _ Hin) in Ho1. apply elem_of_seq in Ho1.
        unfold target in Ho1. lia.
      * apply (elem_of_sublist _ _ _ Hin) in Ho2. apply elem_of_seq in Ho2. lia.
    + rewrite Hout. unfold descriptors. cbn [outHeap outMeta]. rewrite omap_app.
      cbn [omap list_omap]. rewrite Ht.
      change (d :: omap (fun l => h1 !! l) o2') with ([d] ++ omap (fun l => h1 !! l) o2').
      rewrite !contents_app.
      rewrite (contents_omap_none h1 idValue o1), (contents_omap_none h1 idValue o2').
      * unfold d. by rewrite contents_name_eq.
      * intros l o Hl. apply H2. by eapply elem_of_sublist.
      * intros l o Hl. apply H1. by eapply elem_of_sublist.
  - intros Hm. apply (elem_of_sublist _ _ _ Hm) in Hsub. apply elem_of_seq in Hsub. lia.
Qed.

Lemma page_entry_overrides_generated_witness :
  exists r,
    generateMeta noSeo server overrideHeap overrideData noOptions = Some r
    /\ contents "name" "description" (descriptors r) = ["Custom text"]%string
    /\ 0%nat ∉ outMeta r.
Proof.
  exact (page_entry_overrides_generated noSeo server overrideHeap overrideData noOptions
           0%nat "description" "Custom text" "Hello world"
           eq_refl eq_refl eq_refl ltac:(discriminate) eq_refl).
Defined.

(** X20.  Without custom entries, and when no two generated descriptors
    have the same identifying key and value, the call returns the
    generated descriptors, all of them, in the order of generation: the
    final [_.uniqWith] drops and moves nothing. *)
Theorem distinct_descriptors_are_returned
    (configSeo : Seo.t) (env : Env.t) (h : heap) (data : Seo.t) (options : Options.t) :
  let generated := generatedSchema env (defaults data (seoSchema configSeo)) options in
  getOr [] (Seo.meta configSeo) = [] -> getOr [] (Seo.meta data) = [] ->
  NoDup (idPair <$> generated) ->
  exists r,
    generateMeta configSeo env h data options = Some r
    /\ descriptors r = generated
    /\ outHeap r = h ++ generated.
Proof.
  intros generated Hconfig Hdata Hnodup.
  assert (Hc' : getOr [] (Seo.meta (seoSchema configSeo)) = []).
  { unfold seoSchema. cbn [defaults Seo.meta schemaLiteral].
    by destruct (Seo.meta configSeo). }
  assert (Hu' : getOr [] (Seo.meta (defaults data (seoSchema configSeo))) = []).
  { unfold seoSchema. cbn [defaults Seo.meta schemaLiteral].
    by destruct (Seo.meta data), (Seo.meta configSeo). }
  eexists. split.
  { unfold generateMeta, workingList. rewrite Hc', Hu'. fold generated.
    cbn [addUpdateMeta mbind option_bind]. reflexivity. }
  split; [|done]. unfold descriptors. cbn [outHeap outMeta].
  rewrite uniqWith_distinct; [apply omap_lookup_seq|].
  intros l1 x l2 Hsplit. apply Forall_forall. intros y Hy.
  assert (Hx : x ∈ seq (length h) (length generated)) by (rewrite Hsplit; elem_of_lists).
  assert (Hy' : y ∈ seq (length h) (length generated)) by (rewrite Hsplit; elem_of_lists).
  assert (Hxy : x <> y).
  { intros ->. pose proof (NoDup_seq (length h) (length generated)) as Hnd.
    rewrite Hsplit in Hnd. apply NoDup_app in Hnd as (_ & Hnd & _).
    apply (Hnd y Hy). by left. }
  apply elem_of_seq in Hx as [Hxge Hxlt]. apply elem_of_seq in Hy' as [Hyge Hylt].
  unfold isEqualAt. apply Nat.eqb_neq in Hxy as Hneq. rewrite Hneq. cbn [orb].
  rewrite !lookup_app_r by lia.
  destruct (generated !! (x - length h)%nat) as [ox|] eqn:Ex; [|done].
  destruct (generated !! (y - length h)%nat) as [oy|] eqn:Ey; [|done].
  pose proof (generatedSchema_generated env (defaults data (seoSchema configSeo)) options)
    as Hall. fold generated in Hall. rewrite Forall_forall in Hall.
  apply isEqual_generated_distinct.
  - apply Hall. by eapply list_elem_of_lookup_2.
  - apply Hall. by eapply list_elem_of_lookup_2.
  - intros Heq. apply Hxy.
    assert ((x - length h)%nat = (y - length h)%nat); [|lia].
    apply (NoDup_lookup (idPair <$> generated) _ _ (idPair ox) Hnodup).
    + by rewrite list_lookup_fmap, Ex.
    + by rewrite list_lookup_fmap, Ey, Heq.
Qed.

Lemma distinct_descriptors_are_returned_witness :
  exists r,
    generateMeta noSeo server [] plainData noOptions = Some r
    /\ descriptors r = generatedSchema server (defaults plainData (seoSchema noSeo)) noOptions
    /\ outHeap r = [] ++ generatedSchema server (defaults plainData (seoSchema noSeo)) noOptions.
Proof.
  apply (distinct_descriptors_are_returned noSeo server [] plainData noOptions
           eq_refl eq_refl).
  match goal with |- ?P => apply (@bool_decide_unpack P _) end. vm_compute. exact I.
Defined.
